(** * Link-prediction feature extraction: a shallow embedding

    The notebook builds an undirected [networkx] graph from the positive
    training edges and, for a pair of node ids, computes a list of ten
    numbers ([extract_features]).  This file embeds

    - the part of [networkx.Graph] the notebook calls (adjacency as a
      dictionary of neighbour sets, [has_edge], [remove_edge], [add_edge],
      [degree], [common_neighbors], [shortest_path_length]);
    - the four helper metrics of the notebook and [extract_features] itself,
      as a computation that threads the (mutable) graph and may raise.

    The numbers are modelled twice.  In the first reading Python floats
    are exact real numbers: rounding, overflow and the order of a
    floating-point summation play no part, and the one non-number that the
    code tests for, NumPy's NaN, is explicit.  What depends on the graph,
    on counts and on the shape of the result is proved on this reading.
    In the second reading ([extract_features_f64] and the functions it
    calls) the numbers are IEEE 754 binary64 floats, as in the running
    code; what depends on rounding is settled there. *)

From Stdlib Require Import ZArith Reals Lra Lia Psatz.
From Stdlib Require PrimFloat FloatOps FloatAxioms SpecFloat.
From stdpp Require Import gmap sets list fin_maps.

Local Open Scope Z_scope.

(** ** Python exceptions and results *)

Inductive exn : Type :=
  | NetworkXError
  | NetworkXNoPath
  | NodeNotFound
  | ValueError.

Inductive result (A : Type) : Type :=
  | Ok (a : A)
  | Raise (e : exn).
Arguments Ok {A} a.
Arguments Raise {A} e.

(** ** The graph: [G._adj], a dictionary from node to its neighbour set *)

Abbreviation Graph := (gmap Z (gset Z)).

(** [n in G] *)
Definition has_node (G : Graph) (n : Z) : bool :=
  bool_decide (is_Some (G !! n)).

(** [G._adj[n]]; every neighbour stored by [networkx] is itself a key of
    the dictionary ([graph_wf] below), so the default is only met for ids
    that are not nodes. *)
Definition adj (G : Graph) (n : Z) : gset Z :=
  default ∅ (G !! n).

(** [G.has_edge(u, v)]: [v in G._adj[u]], and [False] on a [KeyError]. *)
Definition has_edge (G : Graph) (u v : Z) : bool :=
  bool_decide (v ∈ adj G u).

(** [G.degree(n)]: the number of neighbours, a self-loop counted twice. *)
Definition degree (G : Graph) (n : Z) : Z :=
  Z.of_nat (size (adj G n)) + (if bool_decide (n ∈ adj G n) then 1 else 0).

(** [G.add_node(n)] *)
Definition add_node (n : Z) (G : Graph) : Graph :=
  match G !! n with
  | Some _ => G
  | None => <[n := ∅]> G
  end.

(** [G.add_edge(u, v)]: both endpoints become nodes when they are not. *)
Definition add_edge (u v : Z) (G : Graph) : Graph :=
  let G1 := <[u := adj G u ∪ {[v]}]> G in
  <[v := adj G1 v ∪ {[u]}]> G1.

(** [G.remove_edge(u, v)]: [del adj[u][v]], then [del adj[v][u]] unless
    [u == v]; a [KeyError] at either deletion becomes [NetworkXError]. The
    graph returned is the one left behind, also when the call raises. *)
Definition remove_edge (u v : Z) (G : Graph) : result unit * Graph :=
  if bool_decide (v ∈ adj G u) then
    let G1 := <[u := adj G u ∖ {[v]}]> G in
    if bool_decide (u = v) then (Ok tt, G1)
    else if bool_decide (u ∈ adj G1 v) then
      (Ok tt, <[v := adj G1 v ∖ {[u]}]> G1)
    else (Raise NetworkXError, G1)
  else (Raise NetworkXError, G).

(** The representation invariant of [networkx.Graph]: adjacency is
    symmetric and every neighbour is a node. *)
Definition graph_wf (G : Graph) : Prop :=
  map_Forall (λ u nu, set_Forall (λ v, is_Some (G !! v) ∧ u ∈ adj G v) nu) G.

(** A graph without self-loops. *)
Definition loop_free (G : Graph) : Prop :=
  map_Forall (λ u nu, u ∉ nu) G.

(** [list(nx.common_neighbors(G, u, v))]: the nodes adjacent to both,
    [u] and [v] themselves left out; [NetworkXError] when an endpoint is
    not a node. *)
Definition common_neighbors (G : Graph) (u v : Z) : result (list Z) :=
  if has_node G u && has_node G v then
    Ok (elements ((adj G u ∩ adj G v) ∖ {[u; v]}))
  else Raise NetworkXError.

(** [set(G.neighbors(n))] *)
Definition neighbors (G : Graph) (n : Z) : result (gset Z) :=
  match G !! n with
  | Some nu => Ok nu
  | None => Raise NetworkXError
  end.

(** *** Breadth-first distance

    [nx.shortest_path_length(G, source, target)] without weights returns
    the number of edges of a shortest path. The search is modelled level by
    level: [frontier] holds the nodes at distance [d], [seen] those at
    distance at most [d]. *)
Fixpoint bfs (G : Graph) (fuel : nat) (seen frontier : gset Z)
    (target : Z) (d : nat) : option nat :=
  if bool_decide (target ∈ frontier) then Some d
  else match fuel with
       | O => None
       | S fuel' =>
           let next := set_bind (adj G) frontier ∖ seen in
           if bool_decide (next = ∅) then None
           else bfs G fuel' (seen ∪ next) next target (S d)
       end.

Definition shortest_path_length (G : Graph) (source target : Z) : result Z :=
  if has_node G source && has_node G target then
    match bfs G (size G) {[source]} {[source]} target 0 with
    | Some d => Ok (Z.of_nat d)
    | None => Raise NetworkXNoPath
    end
  else Raise NodeNotFound.

(** ** NumPy on attribute vectors, over exact numbers

    These functions compute with real numbers. A relation between their
    results that rounding can break (a bound reached only approximately,
    a symmetry, a value at a vector of zero variance) is not read off
    them: see the binary64 versions further down. *)

Inductive npfloat : Type :=
  | Finite (r : R)
  | NaN.

Definition np_isnan (x : npfloat) : bool :=
  match x with NaN => true | Finite _ => false end.

(** Equality of two floats, as Python's [==] and [!=] decide it. *)
Global Instance R_eq_dec : EqDecision R := Req_dec_T.

Definition Rsum (l : list R) : R := foldr Rplus 0%R l.

(** [np.dot(u, v)] on one-dimensional arrays *)
Definition np_dot (u v : list R) : result R :=
  if bool_decide (length u = length v) then Ok (Rsum (zip_with Rmult u v))
  else Raise ValueError.

(** [np.linalg.norm(u)] *)
Definition np_linalg_norm (u : list R) : R :=
  sqrt (Rsum (zip_with Rmult u u)).

Definition mean (u : list R) : R := (Rsum u / INR (length u))%R.

Definition centered (u : list R) : list R :=
  map (λ x, (x - mean u)%R) u.

(** Entry [i, j] of [np.cov] of the two rows [x], [y] (ddof = 1). *)
Definition cov (x y : list R) : R :=
  (Rsum (zip_with Rmult (centered x) (centered y)) / (INR (length x) - 1))%R.

(** [np.clip(x, lo, hi)] *)
Definition np_clip (x lo hi : R) : R := Rmin (Rmax x lo) hi.

(** [np.corrcoef(u, v)[0, 1]] over exact numbers: the covariance divided
    by the standard deviation of each row, then clipped to the interval
    from -1 to 1. Rows of different lengths cannot be stacked
    ([ValueError]); with fewer than two observations, or a row of zero
    variance, the quotient is 0/0 and the entry is NaN. In binary64 the
    variance of a constant row is not always computed as zero:
    [np_corrcoef01_f64]. *)
Definition np_corrcoef01 (u v : list R) : result npfloat :=
  if bool_decide (length u = length v) then
    if bool_decide (length u ≤ 1)%nat then Ok NaN
    else if bool_decide (cov u u = 0%R) then Ok NaN
    else if bool_decide (cov v v = 0%R) then Ok NaN
    else Ok (Finite (np_clip (cov u v / sqrt (cov u u) / sqrt (cov v v))
                       (-1) 1))
  else Raise ValueError.

(** [np.logical_and(u != 0, v != 0).sum()], for two vectors of one length
    (the only case [extract_features] reaches it in: [np.dot] has raised
    before on two different lengths). *)
Definition matching_nonzero (u v : list R) : Z :=
  Z.of_nat (length (filter (λ p, p.1 ≠ 0%R ∧ p.2 ≠ 0%R) (zip u v))).

(** ** The notebook's metrics *)

Definition custom_adamic_adar_index (G : Graph) (node1 node2 : Z) : result R :=
  match common_neighbors G node1 node2 with
  | Raise e => Raise e
  | Ok [] => Ok 0%R
  | Ok common =>
      Ok (foldl (λ score w,
                   let degree := degree G w in
                   if bool_decide (degree > 1) then (score + 1 / ln (IZR degree))%R
                   else score) 0%R common)
  end.

Definition custom_resource_allocation_index (G : Graph) (node1 node2 : Z)
    : result R :=
  match common_neighbors G node1 node2 with
  | Raise e => Raise e
  | Ok [] => Ok 0%R
  | Ok common =>
      Ok (foldl (λ score w,
                   let degree := degree G w in
                   if bool_decide (degree > 0) then (score + 1 / IZR degree)%R
                   else score) 0%R common)
  end.

Definition custom_jaccard_coefficient (G : Graph) (node1 node2 : Z) : result R :=
  match neighbors G node1 with
  | Raise e => Raise e
  | Ok neighbors1 =>
      match neighbors G node2 with
      | Raise e => Raise e
      | Ok neighbors2 =>
          let union_size := Z.of_nat (size (neighbors1 ∪ neighbors2)) in
          if bool_decide (union_size = 0) then Ok 0%R
          else Ok (IZR (Z.of_nat (size (neighbors1 ∩ neighbors2)))
                   / IZR union_size)%R
      end
  end.

(** [cosine_similarity] over exact numbers. *)
Definition cosine_similarity (vec1 vec2 : list R) : result R :=
  match np_dot vec1 vec2 with
  | Raise e => Raise e
  | Ok dot_product =>
      let norm1 := np_linalg_norm vec1 in
      let norm2 := np_linalg_norm vec2 in
      if Rlt_dec 0 (norm1 * norm2) then Ok (dot_product / (norm1 * norm2))%R
      else Ok 0%R
  end.

(** ** Computations that mutate the graph and may raise *)

Definition M (A : Type) : Type := Graph → result A * Graph.

Global Instance M_ret : MRet M := λ A a G, (Ok a, G).
Global Instance M_bind : MBind M := λ A B f m G,
  match m G with
  | (Ok a, G') => f a G'
  | (Raise e, G') => (Raise e, G')
  end.

(** Reading the current graph with a function that does not change it. *)
Definition query {A} (f : Graph → result A) : M A := λ G, (f G, G).
Definition current : M Graph := λ G, (Ok G, G).
Definition run {A} (f : Graph → result A * Graph) : M A := f.
Definition update (f : Graph → Graph) : M unit := λ G, (Ok tt, f G).

(** [try: body  except <those handled>: handler]; what [body] did to the
    graph before raising stays done. *)
Definition try_except {A} (body : M A) (handled : exn → bool) (handler : M A)
    : M A := λ G,
  match body G with
  | (Ok a, G') => (Ok a, G')
  | (Raise e, G') => if handled e then handler G' else (Raise e, G')
  end.

Definition no_path_or_nx_error (e : exn) : bool :=
  match e with
  | NetworkXNoPath | NetworkXError => true
  | _ => false
  end.

Definition any_exception (e : exn) : bool := true.

Section extract.
(** The notebook's global [node_features]. *)
Variable node_features : gmap Z (list R).

(** The body of the first [try] of [extract_features]. *)
Definition path_length_block (node1 node2 : Z) : M Z :=
  G ← current;
  if has_edge G node1 node2 then
    _ ← run (remove_edge node1 node2);
    path_length ← query (λ G, shortest_path_length G node1 node2);
    _ ← update (add_edge node1 node2);
    mret path_length
  else
    query (λ G, shortest_path_length G node1 node2).

(** The body of the last [try] of [extract_features]. *)
Definition shared_neighbors_block (node1 node2 : Z) : M R :=
  neighbors1 ← query (λ G, neighbors G node1);
  neighbors2 ← query (λ G, neighbors G node2);
  if bool_decide (Z.of_nat (size neighbors1) + Z.of_nat (size neighbors2) > 0)
  then mret (IZR (Z.of_nat (size (neighbors1 ∩ neighbors2)))
             / IZR (Z.of_nat (size neighbors1) + Z.of_nat (size neighbors2)
                    - Z.of_nat (size (neighbors1 ∩ neighbors2))))%R
  else mret 0%R.

(** The correlation entry with its two fallbacks, over exact numbers (the
    type [npfloat] keeps NaN apart, so the [isnan] test decides between
    the two constructors). *)
Definition correlation_block (vec1 vec2 : list R) : R :=
  match np_corrcoef01 vec1 vec2 with
  | Ok corr => if negb (np_isnan corr)
               then match corr with Finite r => r | NaN => 0%R end
               else 0%R
  | Raise _ => 0%R
  end.

Definition extract_features (node1 node2 : Z) : M (list R) :=
  G ← current;
  if negb (has_node G node1) || negb (has_node G node2) then
    mret (replicate 10 0%R)
  else
    let features := [] in
    common ← query (λ G, common_neighbors G node1 node2);
    let features := features ++ [IZR (Z.of_nat (length common))] in
    jaccard ← query (λ G, custom_jaccard_coefficient G node1 node2);
    let features := features ++ [jaccard] in
    G ← current;
    let features := features ++ [IZR (degree G node1 * degree G node2)] in
    adamic_adar ← query (λ G, custom_adamic_adar_index G node1 node2);
    let features := features ++ [adamic_adar] in
    resource ← query (λ G, custom_resource_allocation_index G node1 node2);
    let features := features ++ [resource] in
    path_length ← try_except (path_length_block node1 node2)
                     no_path_or_nx_error (mret (-1));
    let features := features ++ [IZR path_length] in
    attribute_features ←
      match node_features !! node1, node_features !! node2 with
      | Some vec1, Some vec2 =>
          cos_sim ← query (λ _, cosine_similarity vec1 vec2);
          mret [cos_sim; correlation_block vec1 vec2;
                IZR (matching_nonzero vec1 vec2)]
      | _, _ => mret [0%R; 0%R; 0%R]
      end;
    let features := features ++ attribute_features in
    ratio ← try_except (shared_neighbors_block node1 node2)
               any_exception (mret 0%R);
    let features := features ++ [ratio] in
    mret features.

End extract.

(** ** Loading: the graph and the two lists of training pairs *)

(** [for node_id in node_features: G.add_node(node_id)] *)
Definition add_nodes (node_features : gmap Z (list R)) (G : Graph) : Graph :=
  foldl (λ G node_id, add_node node_id G) G (elements (dom node_features)).

(** What the loop over [train.txt] builds. *)
Record training : Type := {
  train_graph : Graph;
  edges_positive : list (Z * Z);
  edges_negative : list (Z * Z)
}.

(** The body of the loop, on a line already split into its integer
    tokens: a line that does not have three tokens is passed over; label
    1 adds the edge to the graph and the pair to [edges_positive]; any
    other label only adds the pair to [edges_negative]. *)
Definition read_train_line (st : training) (parts : list Z) : training :=
  match parts with
  | [src; dst; label] =>
      if bool_decide (label = 1) then
        {| train_graph := add_edge src dst (train_graph st);
           edges_positive := edges_positive st ++ [(src, dst)];
           edges_negative := edges_negative st |}
      else
        {| train_graph := train_graph st;
           edges_positive := edges_positive st;
           edges_negative := edges_negative st ++ [(src, dst)] |}
  | _ => st
  end.

(** The loading cell: the nodes of the attribute table, then the lines
    of [train.txt] in order. *)
Definition load_training (node_features : gmap Z (list R))
    (lines : list (list Z)) : training :=
  foldl read_train_line
    {| train_graph := add_nodes node_features ∅;
       edges_positive := [];
       edges_negative := [] |}
    lines.

(** ** The loops over pairs *)

(** [for src, dst in pairs: rows.append(extract_features(G, src, dst))] *)
Fixpoint extract_rows (node_features : gmap Z (list R))
    (pairs : list (Z * Z)) (rows : list (list R)) : M (list (list R)) :=
  match pairs with
  | [] => mret rows
  | (src, dst) :: pairs' =>
      features ← extract_features node_features src dst;
      extract_rows node_features pairs' (rows ++ [features])
  end.

(** [for src, dst in pairs: X.append(extract_features(G, src, dst));
    y.append(label)] *)
Fixpoint extract_labelled (node_features : gmap Z (list R)) (label : Z)
    (pairs : list (Z * Z)) (X : list (list R)) (y : list Z)
    : M (list (list R) * list Z) :=
  match pairs with
  | [] => mret (X, y)
  | (src, dst) :: pairs' =>
      features ← extract_features node_features src dst;
      extract_labelled node_features label pairs' (X ++ [features])
        (y ++ [label])
  end.

(** The cell that prepares the training data: as many positive as
    negative examples, the positive ones first. *)
Definition prepare_training (node_features : gmap Z (list R))
    (edges_positive edges_negative : list (Z * Z))
    : M (list (list R) * list Z) :=
  let min_examples :=
    Nat.min (length edges_positive) (length edges_negative) in
  Xy ← extract_labelled node_features 1 (take min_examples edges_positive)
          [] [];
  extract_labelled node_features 0 (take min_examples edges_negative)
    Xy.1 Xy.2.

(** ** The same numbers in binary64

    Python's [float] and NumPy's [float64] are IEEE 754 binary64 numbers;
    the functions above are repeated here on the kernel's binary64 floats,
    operation for operation. An [int] that meets a float is converted
    ([float_of_Z], exact below 2^53); sums are accumulated from left to
    right, which is NumPy's order for fewer than eight terms (longer sums
    are split into blocks, and the order inside [np.dot] is the linear
    algebra library's). [math.log] is a parameter: the kernel's floats
    have no logarithm. *)

Section binary64.
Import PrimFloat.

Variable math_log : float → float.

Fixpoint float_of_pos (p : positive) : float :=
  match p with
  | xH => 1%float
  | xO p' => (2 * float_of_pos p')%float
  | xI p' => (2 * float_of_pos p' + 1)%float
  end.

(** [float(z)] *)
Definition float_of_Z (z : Z) : float :=
  match z with
  | Z0 => 0%float
  | Zpos p => float_of_pos p
  | Zneg p => (- float_of_pos p)%float
  end.

Definition np_sum_f64 (l : list float) : float := foldl add 0%float l.

Definition np_dot_f64 (u v : list float) : result float :=
  if bool_decide (length u = length v)
  then Ok (np_sum_f64 (zip_with mul u v))
  else Raise ValueError.

Definition np_linalg_norm_f64 (u : list float) : float :=
  sqrt (np_sum_f64 (zip_with mul u u)).

Definition mean_f64 (u : list float) : float :=
  (np_sum_f64 u / float_of_Z (Z.of_nat (length u)))%float.

Definition centered_f64 (u : list float) : list float :=
  map (λ x, (x - mean_f64 u)%float) u.

(** [np.cov] multiplies by [1 / (N - 1)], with [N - 1] replaced by [0.0]
    when it is not positive. *)
Definition cov_factor_f64 (n : nat) : float :=
  (1 / (if bool_decide (n ≤ 1)%nat then 0 else float_of_Z (Z.of_nat n - 1)))%float.

Definition cov_f64 (x y : list float) : float :=
  (np_sum_f64 (zip_with mul (centered_f64 x) (centered_f64 y))
   * cov_factor_f64 (length x))%float.

(** [np.clip]: the larger of [x] and [lo], then the smaller of that and
    [hi]; a NaN goes through. *)
Definition np_clip_f64 (x lo hi : float) : float :=
  let m := if is_nan x || (lo <? x)%float then x else lo in
  if is_nan m || (m <? hi)%float then m else hi.

Definition np_corrcoef01_f64 (u v : list float) : result float :=
  if bool_decide (length u = length v) then
    Ok (np_clip_f64 (cov_f64 u v / sqrt (cov_f64 u u) / sqrt (cov_f64 v v))
          (-1) 1)%float
  else Raise ValueError.

Definition matching_nonzero_f64 (u v : list float) : Z :=
  Z.of_nat (length (List.filter
                      (λ p : float * float,
                         negb (p.1 =? 0)%float && negb (p.2 =? 0)%float)
                      (zip u v))).

Definition custom_adamic_adar_index_f64 (G : Graph) (node1 node2 : Z)
    : result float :=
  match common_neighbors G node1 node2 with
  | Raise e => Raise e
  | Ok [] => Ok 0%float
  | Ok common =>
      Ok (foldl (λ score w,
                   let degree := degree G w in
                   if bool_decide (degree > 1)
                   then (score + 1 / math_log (float_of_Z degree))%float
                   else score) 0%float common)
  end.

Definition custom_resource_allocation_index_f64 (G : Graph) (node1 node2 : Z)
    : result float :=
  match common_neighbors G node1 node2 with
  | Raise e => Raise e
  | Ok [] => Ok 0%float
  | Ok common =>
      Ok (foldl (λ score w,
                   let degree := degree G w in
                   if bool_decide (degree > 0)
                   then (score + 1 / float_of_Z degree)%float
                   else score) 0%float common)
  end.

Definition custom_jaccard_coefficient_f64 (G : Graph) (node1 node2 : Z)
    : result float :=
  match neighbors G node1 with
  | Raise e => Raise e
  | Ok neighbors1 =>
      match neighbors G node2 with
      | Raise e => Raise e
      | Ok neighbors2 =>
          let union_size := Z.of_nat (size (neighbors1 ∪ neighbors2)) in
          if bool_decide (union_size = 0) then Ok 0%float
          else Ok (float_of_Z (Z.of_nat (size (neighbors1 ∩ neighbors2)))
                   / float_of_Z union_size)%float
      end
  end.

Definition cosine_similarity_f64 (vec1 vec2 : list float) : result float :=
  match np_dot_f64 vec1 vec2 with
  | Raise e => Raise e
  | Ok dot_product =>
      let norm1 := np_linalg_norm_f64 vec1 in
      let norm2 := np_linalg_norm_f64 vec2 in
      if (0 <? norm1 * norm2)%float
      then Ok (dot_product / (norm1 * norm2))%float
      else Ok 0%float
  end.

(** The notebook's global [node_features], with binary64 entries. *)
Variable node_features : gmap Z (list float).

Definition shared_neighbors_block_f64 (node1 node2 : Z) : M float :=
  neighbors1 ← query (λ G, neighbors G node1);
  neighbors2 ← query (λ G, neighbors G node2);
  if bool_decide (Z.of_nat (size neighbors1) + Z.of_nat (size neighbors2) > 0)
  then mret (float_of_Z (Z.of_nat (size (neighbors1 ∩ neighbors2)))
             / float_of_Z (Z.of_nat (size neighbors1)
                           + Z.of_nat (size neighbors2)
                           - Z.of_nat (size (neighbors1 ∩ neighbors2))))%float
  else mret 0%float.

Definition correlation_block_f64 (vec1 vec2 : list float) : float :=
  match np_corrcoef01_f64 vec1 vec2 with
  | Ok corr => if negb (is_nan corr) then corr else 0%float
  | Raise _ => 0%float
  end.

Definition extract_features_f64 (node1 node2 : Z) : M (list float) :=
  G ← current;
  if negb (has_node G node1) || negb (has_node G node2) then
    mret (replicate 10 0%float)
  else
    let features := [] in
    common ← query (λ G, common_neighbors G node1 node2);
    let features := features ++ [float_of_Z (Z.of_nat (length common))] in
    jaccard ← query (λ G, custom_jaccard_coefficient_f64 G node1 node2);
    let features := features ++ [jaccard] in
    G ← current;
    let features :=
      features ++ [float_of_Z (degree G node1 * degree G node2)] in
    adamic_adar ← query (λ G, custom_adamic_adar_index_f64 G node1 node2);
    let features := features ++ [adamic_adar] in
    resource ←
      query (λ G, custom_resource_allocation_index_f64 G node1 node2);
    let features := features ++ [resource] in
    path_length ← try_except (path_length_block node1 node2)
                     no_path_or_nx_error (mret (-1));
    let features := features ++ [float_of_Z path_length] in
    attribute_features ←
      match node_features !! node1, node_features !! node2 with
      | Some vec1, Some vec2 =>
          cos_sim ← query (λ _, cosine_similarity_f64 vec1 vec2);
          mret [cos_sim; correlation_block_f64 vec1 vec2;
                float_of_Z (matching_nonzero_f64 vec1 vec2)]
      | _, _ => mret [0%float; 0%float; 0%float]
      end;
    let features := features ++ attribute_features in
    ratio ← try_except (shared_neighbors_block_f64 node1 node2)
               any_exception (mret 0%float);
    let features := features ++ [ratio] in
    mret features.

End binary64.

(** * Definitions used to state the properties *)

Global Instance graph_wf_dec (G : Graph) : Decision (graph_wf G).
Proof. unfold graph_wf. apply _. Defined.

Global Instance loop_free_dec (G : Graph) : Decision (loop_free G).
Proof. unfold loop_free. apply _. Defined.

(** All attribute vectors of the table have one length. *)
Definition equal_lengths (node_features : gmap Z (list R)) : Prop :=
  map_Forall (λ _ u, map_Forall (λ _ v, length u = length v) node_features)
    node_features.

Global Instance equal_lengths_dec nf : Decision (equal_lengths nf).
Proof. unfold equal_lengths. apply _. Defined.

(** The graph without the edge between [a] and [b]. *)
Definition delete_edge (a b : Z) (G : Graph) : Graph :=
  <[b := adj G b ∖ {[a]}]> (<[a := adj G a ∖ {[b]}]> G).

(** [walk G s n t]: there are [n] edges leading from [s] to [t]. *)
Inductive walk (G : Graph) (s : Z) : nat → Z → Prop :=
  | walk_nil : walk G s 0 s
  | walk_snoc n v w : walk G s n v → w ∈ adj G v → walk G s (S n) w.

(** The nodes within [k] edges of [s]. *)
Fixpoint ball (G : Graph) (s : Z) (k : nat) : gset Z :=
  match k with
  | O => {[s]}
  | S k' => ball G s k' ∪ set_bind (adj G) (ball G s k')
  end.

(** [d] is the distance from [s] to [t], or there is none. *)
Definition distance_is (G : Graph) (s t : Z) (r : option nat) : Prop :=
  match r with
  | Some d => walk G s d t ∧ ∀ n, walk G s n t → (d ≤ n)%nat
  | None => ∀ n, ¬ walk G s n t
  end.

(** What the loop of [bfs] keeps true at depth [d]. *)
Definition bfs_inv (G : Graph) (s t : Z) (seen frontier : gset Z) (d : nat)
    : Prop :=
  seen = ball G s d ∧ frontier ⊆ seen ∧
  (∀ v, v ∈ seen → v ∉ frontier → adj G v ⊆ seen) ∧
  (t ∈ seen → t ∈ frontier) ∧
  (∀ k, (k < d)%nat → t ∉ ball G s k).

(** The value of the Jaccard coefficient on two neighbour sets. *)
Definition jaccard_of (n1 n2 : gset Z) : R :=
  if bool_decide (Z.of_nat (size (n1 ∪ n2)) = 0) then 0%R
  else (IZR (Z.of_nat (size (n1 ∩ n2))) / IZR (Z.of_nat (size (n1 ∪ n2))))%R.

(** The value of the last component on two neighbour sets. *)
Definition shared_ratio_of (n1 n2 : gset Z) : R :=
  if bool_decide (Z.of_nat (size n1) + Z.of_nat (size n2) > 0)
  then (IZR (Z.of_nat (size (n1 ∩ n2)))
        / IZR (Z.of_nat (size n1) + Z.of_nat (size n2)
               - Z.of_nat (size (n1 ∩ n2))))%R
  else 0%R.

(** The loop of the Adamic-Adar index over a list of common neighbours. *)
Definition adamic_adar_sum (G : Graph) (common : list Z) : R :=
  foldl (λ score w,
           let degree := degree G w in
           if bool_decide (degree > 1) then (score + 1 / ln (IZR degree))%R
           else score) 0%R common.

(** The loop of the resource-allocation index. *)
Definition resource_allocation_sum (G : Graph) (common : list Z) : R :=
  foldl (λ score w,
           let degree := degree G w in
           if bool_decide (degree > 0) then (score + 1 / IZR degree)%R
           else score) 0%R common.

(** The first [try] of [extract_features] with its handler. *)
Definition path_length_step (node1 node2 : Z) : M Z :=
  try_except (path_length_block node1 node2) no_path_or_nx_error (mret (-1)).

(** The last [try] of [extract_features] with its handler. *)
Definition shared_neighbors_step (node1 node2 : Z) : M R :=
  try_except (shared_neighbors_block node1 node2) any_exception (mret 0%R).

(** The attribute part of [extract_features], which does not touch the
    graph. *)
Definition attribute_step (node_features : gmap Z (list R)) (node1 node2 : Z)
    : result (list R) :=
  match node_features !! node1, node_features !! node2 with
  | Some vec1, Some vec2 =>
      match cosine_similarity vec1 vec2 with
      | Ok cos_sim => Ok [cos_sim; correlation_block vec1 vec2;
                          IZR (matching_nonzero vec1 vec2)]
      | Raise e => Raise e
      end
  | _, _ => Ok [0%R; 0%R; 0%R]
  end.

(** [-1] for a search that raised. *)
Definition or_sentinel (r : result Z) : Z :=
  match r with Ok d => d | Raise _ => -1 end.

(** Sum of the products of the deviations from the means. *)
Definition codeviation (u v : list R) : R :=
  Rsum (zip_with Rmult (centered u) (centered v)).

(** The sample correlation coefficient of the textbooks. *)
Definition pearson (u v : list R) : R :=
  (codeviation u v / (sqrt (codeviation u u) * sqrt (codeviation v v)))%R.

(** Small graphs and one attribute table to run the code on. *)
Definition bridge : Graph := add_edge 1 2 ∅.
Definition triangle : Graph := add_edge 1 3 (add_edge 2 3 (add_edge 1 2 ∅)).
Definition path3 : Graph := add_edge 2 3 (add_edge 1 2 ∅).
Definition looped : Graph := add_edge 1 2 (add_edge 1 1 ∅).
Definition isolated3 : Graph := add_node 3 (add_edge 1 2 ∅).
Definition table3 : gmap Z (list R) :=
  <[1 := [1%R; 0%R]]> (<[2 := [1%R; 0%R]]> (<[3 := [0%R; 1%R]]> ∅)).

(** The pair read from a line of [train.txt] whose label satisfies [keep]. *)
Definition pair_of_line (keep : Z → bool) (parts : list Z) : option (Z * Z) :=
  match parts with
  | [src; dst; label] => if keep label then Some (src, dst) else None
  | _ => None
  end.

(** A training file and a list of pairs to run the loops on. *)
Definition lines3 : list (list Z) :=
  [[1; 2; 1]; [2; 3; 1]; [1; 3; 0]; [4; 5]; [3; 4; 1]; [2; 4; 0]].
Definition pairs3 : list (Z * Z) := [(1, 2); (1, 3); (1, 99)].

(** What every prefix of the training file has built. *)
Definition training_inv (nf : gmap Z (list R)) (st : training) : Prop :=
  graph_wf (train_graph st) ∧
  (∀ a b, b ∈ adj (train_graph st) a ↔
          (a, b) ∈ edges_positive st ∨ (b, a) ∈ edges_positive st) ∧
  (∀ n, is_Some (train_graph st !! n) ↔
        is_Some (nf !! n) ∨
        ∃ m, (n, m) ∈ edges_positive st ∨ (m, n) ∈ edges_positive st).

(** ** Definitions used to state the binary64 properties *)

Section binary64_statements.
Import PrimFloat.

Variable math_log : float → float.

Definition jaccard_of_f64 (n1 n2 : gset Z) : float :=
  if bool_decide (Z.of_nat (size (n1 ∪ n2)) = 0) then 0%float
  else (float_of_Z (Z.of_nat (size (n1 ∩ n2)))
        / float_of_Z (Z.of_nat (size (n1 ∪ n2))))%float.

Definition shared_ratio_of_f64 (n1 n2 : gset Z) : float :=
  if bool_decide (Z.of_nat (size n1) + Z.of_nat (size n2) > 0)
  then (float_of_Z (Z.of_nat (size (n1 ∩ n2)))
        / float_of_Z (Z.of_nat (size n1) + Z.of_nat (size n2)
                      - Z.of_nat (size (n1 ∩ n2))))%float
  else 0%float.

Definition adamic_adar_sum_f64 (G : Graph) (common : list Z) : float :=
  foldl (λ score w,
           let degree := degree G w in
           if bool_decide (degree > 1)
           then (score + 1 / math_log (float_of_Z degree))%float
           else score) 0%float common.

Definition resource_allocation_sum_f64 (G : Graph) (common : list Z) : float :=
  foldl (λ score w,
           let degree := degree G w in
           if bool_decide (degree > 0)
           then (score + 1 / float_of_Z degree)%float
           else score) 0%float common.

(** The attribute part of [extract_features_f64]. *)
Definition attribute_step_f64 (node_features : gmap Z (list float))
    (node1 node2 : Z) : result (list float) :=
  match node_features !! node1, node_features !! node2 with
  | Some vec1, Some vec2 =>
      match cosine_similarity_f64 vec1 vec2 with
      | Ok cos_sim => Ok [cos_sim; correlation_block_f64 vec1 vec2;
                          float_of_Z (matching_nonzero_f64 vec1 vec2)]
      | Raise e => Raise e
      end
  | _, _ => Ok [0%float; 0%float; 0%float]
  end.

(** The last [try] of [extract_features_f64] with its handler. *)
Definition shared_neighbors_step_f64 (node1 node2 : Z) : M float :=
  try_except (shared_neighbors_block_f64 node1 node2) any_exception
    (mret 0%float).

(** The components whose value does not depend on an order of
    floating-point operations that the two argument orders could change:
    counts, quotients of two counts, the distance, and the cosine (the
    same products added in the same order). The two neighbour-weighted
    sums and the correlation are left out. *)
Definition order_free_components (features : list float)
    : list (option float) :=
  [features !! 0%nat; features !! 1%nat; features !! 2%nat;
   features !! 5%nat; features !! 6%nat; features !! 8%nat;
   features !! 9%nat].

(** Two nodes without an edge, and attribute tables for them. *)
Definition two_nodes : Graph := add_node 2 (add_node 1 ∅).


Definition table_integers : gmap Z (list float) :=
  <[1 := [0; 0; 3]%float]> (<[2 := [0; 3; 9]%float]> ∅).



(** [math.log] is not called on a pair without common neighbours; this
    function stands for it in the runs on such pairs. *)
Definition log_not_called (x : float) : float := nan.

End binary64_statements.

(** What [f] makes of a returned value; an exception is passed on. *)
Definition result_map {A B} (f : A → B) (r : result A) : result B :=
  match r with
  | Ok a => Ok (f a)
  | Raise e => Raise e
  end.

(** * Facts about the graph operations *)

(** Closed goals over concrete graphs are settled by evaluation. *)
Ltac by_evaluation :=
  first [ vm_compute; reflexivity
        | apply (bool_decide_unpack _); vm_compute; exact I ].

(** Opens the binds and the graph accessors of a computation in [M]. *)
Ltac unfold_M :=
  unfold mbind, M_bind, mret, M_ret, current, run, query, update, try_except.

Lemma has_node_true (G : Graph) n : has_node G n = true ↔ is_Some (G !! n).
Proof. unfold has_node. by rewrite bool_decide_eq_true. Qed.

Lemma has_node_false (G : Graph) n : has_node G n = false ↔ G !! n = None.
Proof.
  unfold has_node. rewrite bool_decide_eq_false, eq_None_not_Some. done.
Qed.

Lemma has_node_dom (G : Graph) n : has_node G n = true ↔ n ∈ dom G.
Proof. by rewrite has_node_true, elem_of_dom. Qed.

Lemma has_edge_true (G : Graph) u v : has_edge G u v = true ↔ v ∈ adj G u.
Proof. unfold has_edge. by rewrite bool_decide_eq_true. Qed.

Lemma adj_lookup (G : Graph) n nu : G !! n = Some nu → adj G n = nu.
Proof. unfold adj. by intros ->. Qed.

Lemma adj_None (G : Graph) n : G !! n = None → adj G n = ∅.
Proof. unfold adj. by intros ->. Qed.

Lemma adj_insert (G : Graph) u s x :
  adj (<[u := s]> G) x = if decide (u = x) then s else adj G x.
Proof.
  unfold adj. rewrite lookup_insert. by destruct (decide (u = x)).
Qed.

Lemma elem_of_adj_node (G : Graph) u v : v ∈ adj G u → is_Some (G !! u).
Proof.
  unfold adj. destruct (G !! u); [eauto | set_solver].
Qed.

Lemma graph_wf_adj (G : Graph) u v :
  graph_wf G → v ∈ adj G u → is_Some (G !! v) ∧ u ∈ adj G v.
Proof.
  intros Hwf Hv. destruct (elem_of_adj_node _ _ _ Hv) as [nu Hu].
  rewrite (adj_lookup _ _ _ Hu) in Hv. exact (Hwf u nu Hu v Hv).
Qed.

Lemma graph_wf_sym (G : Graph) u v : graph_wf G → v ∈ adj G u → u ∈ adj G v.
Proof. intros Hwf Hv. by destruct (graph_wf_adj G u v Hwf Hv). Qed.

Lemma graph_wf_intro (G : Graph) :
  (∀ u v, v ∈ adj G u → is_Some (G !! v) ∧ u ∈ adj G v) → graph_wf G.
Proof.
  intros H u nu Hu v Hv. apply H. by rewrite (adj_lookup _ _ _ Hu).
Qed.

Lemma has_edge_sym (G : Graph) u v :
  graph_wf G → has_edge G u v = has_edge G v u.
Proof.
  intros Hwf. unfold has_edge. apply bool_decide_ext.
  split; apply graph_wf_sym; done.
Qed.

Lemma graph_wf_empty : graph_wf ∅.
Proof. intros u nu Hu. by rewrite lookup_empty in Hu. Qed.

Lemma graph_wf_add_node n G : graph_wf G → graph_wf (add_node n G).
Proof.
  intros Hwf. unfold add_node. destruct (G !! n) eqn:Hn; [done |].
  apply graph_wf_intro. intros u v. rewrite !adj_insert.
  destruct (decide (n = u)) as [-> | Hne]; [set_solver |].
  intros Hv. destruct (graph_wf_adj G u v Hwf Hv) as [Hs Hu].
  rewrite lookup_insert. destruct (decide (n = v)) as [-> | ?].
  - rewrite Hn in Hs. by destruct Hs.
  - done.
Qed.

Lemma adj_add_edge a b G x :
  adj (add_edge a b G) x =
  adj G x ∪ (if decide (x = a) then {[b]} else ∅)
          ∪ (if decide (x = b) then {[a]} else ∅).
Proof.
  unfold add_edge. rewrite !adj_insert.
  destruct (decide (b = x)) as [-> | Hb], (decide (a = x)) as [-> | Ha];
    repeat case_decide; try congruence; set_solver.
Qed.

Lemma lookup_add_edge_is_Some a b G x :
  is_Some (add_edge a b G !! x) ↔ x = a ∨ x = b ∨ is_Some (G !! x).
Proof.
  unfold add_edge. rewrite !lookup_insert_is_Some. 
  destruct (decide (b = x)), (decide (a = x)); naive_solver.
Qed.

Lemma graph_wf_add_edge a b G : graph_wf G → graph_wf (add_edge a b G).
Proof.
  intros Hwf. apply graph_wf_intro. intros u v.
  rewrite !adj_add_edge, lookup_add_edge_is_Some. intros Hv.
  assert (v ∈ adj G u → is_Some (G !! v) ∧ u ∈ adj G v) as Hsym
    by apply graph_wf_adj, Hwf.
  repeat case_decide; set_solver.
Qed.

Lemma adj_delete_edge a b G x :
  adj (delete_edge a b G) x =
  if decide (x = a) then adj G a ∖ {[b]}
  else if decide (x = b) then adj G b ∖ {[a]} else adj G x.
Proof.
  unfold delete_edge. rewrite !adj_insert.
  destruct (decide (b = x)) as [-> | Hb], (decide (a = x)) as [-> | Ha];
    repeat case_decide; try congruence; set_solver.
Qed.

Lemma remove_edge_present a b G :
  graph_wf G → b ∈ adj G a → remove_edge a b G = (Ok tt, delete_edge a b G).
Proof.
  intros Hwf Hb. unfold remove_edge, delete_edge.
  rewrite bool_decide_eq_true_2 by done.
  case_bool_decide as Hab.
  - subst b. by rewrite insert_insert_eq.
  - rewrite !adj_insert. rewrite decide_False by done.
    rewrite bool_decide_eq_true_2 by (by apply graph_wf_sym).
    done.
Qed.

Lemma delete_edge_comm a b G : delete_edge a b G = delete_edge b a G.
Proof.
  unfold delete_edge. destruct (decide (a = b)) as [-> | Hne]; [done |].
  by rewrite insert_insert_ne.
Qed.

Lemma add_edge_comm a b G : add_edge a b G = add_edge b a G.
Proof.
  apply map_eq. intros x. unfold add_edge.
  rewrite !lookup_insert, !adj_insert.
  destruct (decide (a = x)) as [-> | ?], (decide (b = x)) as [-> | ?];
    repeat case_decide; try congruence; f_equal; set_solver.
Qed.

Lemma lookup_delete_edge_is_Some a b G x :
  is_Some (G !! a) → is_Some (G !! b) →
  is_Some (delete_edge a b G !! x) ↔ is_Some (G !! x).
Proof.
  intros Ha Hb. unfold delete_edge. rewrite !lookup_insert_is_Some.
  destruct (decide (b = x)), (decide (a = x)); naive_solver.
Qed.

Lemma has_node_delete_edge a b G x :
  has_node G a = true → has_node G b = true →
  has_node (delete_edge a b G) x = has_node G x.
Proof.
  rewrite !has_node_true. intros Ha Hb. unfold has_node.
  apply bool_decide_ext. by apply lookup_delete_edge_is_Some.
Qed.

Lemma size_delete_edge a b G :
  is_Some (G !! a) → is_Some (G !! b) → size (delete_edge a b G) = size G.
Proof.
  intros Ha Hb. rewrite <- !size_dom. f_equal. apply set_eq. intros x.
  rewrite !elem_of_dom. by apply lookup_delete_edge_is_Some.
Qed.

Lemma graph_wf_delete_edge a b G :
  graph_wf G → b ∈ adj G a → graph_wf (delete_edge a b G).
Proof.
  intros Hwf Hab. apply graph_wf_intro. intros u v.
  assert (is_Some (G !! a)) as Ha by (by eapply elem_of_adj_node).
  assert (is_Some (G !! b)) as Hb by (by eapply graph_wf_adj).
  rewrite lookup_delete_edge_is_Some by done.
  rewrite !adj_delete_edge.
  assert (∀ x y, y ∈ adj G x → is_Some (G !! y) ∧ x ∈ adj G y) as Hsym
    by (intros; by apply graph_wf_adj).
  repeat case_decide; subst; intros Hv; set_solver.
Qed.

(** Two graphs with the same nodes and the same neighbour sets are equal. *)
Lemma graph_eq (G1 G2 : Graph) :
  (∀ x, is_Some (G1 !! x) ↔ is_Some (G2 !! x)) →
  (∀ x, adj G1 x = adj G2 x) → G1 = G2.
Proof.
  intros Hdom Hadj. apply map_eq. intros x.
  specialize (Hdom x). specialize (Hadj x). unfold adj in Hadj.
  destruct (G1 !! x) as [s1|] eqn:E1, (G2 !! x) as [s2|] eqn:E2; simpl in *.
  - by subst.
  - destruct Hdom as [Hd _]. destruct Hd; eauto. discriminate.
  - destruct Hdom as [_ Hd]. destruct Hd; eauto. discriminate.
  - done.
Qed.

(** Removing an edge and adding it back gives the graph one started from. *)
Lemma add_delete_edge a b G :
  graph_wf G → b ∈ adj G a → add_edge a b (delete_edge a b G) = G.
Proof.
  intros Hwf Hab.
  assert (a ∈ adj G b) as Hba by (by apply graph_wf_sym).
  assert (is_Some (G !! a)) as Ha by (by eapply elem_of_adj_node).
  assert (is_Some (G !! b)) as Hb by (by eapply elem_of_adj_node).
  apply graph_eq; intros x.
  - rewrite lookup_add_edge_is_Some, lookup_delete_edge_is_Some by done.
    naive_solver.
  - rewrite adj_add_edge, adj_delete_edge. apply set_eq. intros y.
    destruct (decide (y = a)), (decide (y = b));
      repeat case_decide; subst; set_solver.
Qed.

(** * Breadth-first search computes the length of a shortest walk *)

Section bfs_correct.
Variable G : Graph.
Hypothesis G_wf : graph_wf G.
Variables s t : Z.
Hypothesis s_node : is_Some (G !! s).

Lemma walk_cons u n w : u ∈ adj G s → walk G u n w → walk G s (S n) w.
Proof.
  intros Hu Hw. induction Hw as [| n v w Hw IH Hvw].
  - eapply walk_snoc; [apply walk_nil | done].
  - eapply walk_snoc; done.
Qed.

Lemma ball_mono k k' : (k ≤ k')%nat → ball G s k ⊆ ball G s k'.
Proof. induction 1; simpl; set_solver. Qed.

Lemma ball_walk k x : x ∈ ball G s k ↔ ∃ n, (n ≤ k)%nat ∧ walk G s n x.
Proof.
  revert x. induction k as [| k IH]; intros x; simpl.
  - rewrite elem_of_singleton. split.
    + intros ->. exists 0%nat. split; [lia | constructor].
    + intros (n & Hn & Hw). inversion Hw; subst; [done | lia].
  - rewrite elem_of_union, elem_of_set_bind. split.
    + intros [Hx | (v & Hv & Hx)].
      * apply IH in Hx as (n & Hn & Hw). exists n. split; [lia | done].
      * apply IH in Hv as (n & Hn & Hw). exists (S n).
        split; [lia | by eapply walk_snoc].
    + intros (n & Hn & Hw). destruct (decide (n ≤ k)%nat) as [Hle | Hgt].
      * left. apply IH. eauto.
      * right. assert (n = S k) as -> by lia.
        inversion Hw as [| n' v w' Hw' Hvx]; subst.
        exists v. split; [| done]. apply IH. eauto.
Qed.

Lemma ball_nodes k : ball G s k ⊆ dom G.
Proof.
  induction k as [| k IH]; simpl.
  - apply singleton_subseteq_l. by apply elem_of_dom.
  - apply union_least; [done |]. intros x. rewrite elem_of_set_bind.
    intros (v & _ & Hx). apply elem_of_dom.
    by destruct (graph_wf_adj G v x G_wf Hx).
Qed.

Lemma ball_stable d :
  ball G s (S d) = ball G s d → ∀ k, ball G s k ⊆ ball G s d.
Proof.
  intros Hst k. destruct (decide (k ≤ d)%nat) as [Hle | Hgt].
  { by apply ball_mono. }
  assert (∃ j, k = (d + j)%nat) as [j ->] by (exists (k - d)%nat; lia).
  clear Hgt. induction j as [| j IH].
  - by rewrite Nat.add_0_r.
  - replace (d + S j)%nat with (S (d + j)) by lia. simpl.
    apply union_least; [done |].
    intros x (v & Hv & Hx)%elem_of_set_bind. rewrite <- Hst. simpl.
    apply elem_of_union_r, elem_of_set_bind. exists v.
    split; [by apply IH | done].
Qed.

Lemma bfs_inv_ball fuel seen frontier d :
  bfs_inv G s t seen frontier d → (size G < size seen + fuel)%nat →
  match bfs G fuel seen frontier t d with
  | Some r => t ∈ ball G s r ∧ ∀ k, (k < r)%nat → t ∉ ball G s k
  | None => ∀ k, t ∉ ball G s k
  end.
Proof.
  revert seen frontier d.
  induction fuel as [| fuel IH]; intros seen frontier d
    (Hseen & Hsub & Hold & Ht & Hlt) Hfuel; simpl.
  - case_bool_decide as Hin.
    + split; [| done]. rewrite <- Hseen. by apply Hsub.
    + exfalso. pose proof (ball_nodes d) as Hn. rewrite <- Hseen in Hn.
      apply subseteq_size in Hn. rewrite size_dom in Hn. lia.
  - case_bool_decide as Hin.
    { split; [| done]. rewrite <- Hseen. by apply Hsub. }
    assert (t ∉ seen) as Hts by (intros ?; by apply Hin, Ht).
    assert (ball G s (S d) = seen ∪ set_bind (adj G) frontier ∖ seen)
      as Hnext.
    { simpl. rewrite <- Hseen. apply set_eq. intros x.
      rewrite !elem_of_union, elem_of_difference, !elem_of_set_bind.
      split.
      - intros [Hx | (v & Hv & Hx)]; [by left |].
        destruct (decide (x ∈ seen)); [by left |]. right.
        split; [| done]. exists v. split; [| done].
        destruct (decide (v ∈ frontier)); [done |].
        exfalso. by apply (Hold v Hv) in Hx.
      - intros [Hx | [(v & Hv & Hx) _]]; [by left |].
        right. exists v. split; [by apply Hsub | done]. }
    case_bool_decide as Hempty.
    + rewrite Hempty, (right_id_L ∅ (∪)), Hseen in Hnext.
      intros k Hk. apply (ball_stable d Hnext k) in Hk.
      by rewrite <- Hseen in Hk.
    + apply IH.
      * repeat split.
        -- done.
        -- set_solver.
        -- intros v Hv Hvn. apply elem_of_union in Hv as [Hv | Hv]; [| done].
           destruct (decide (v ∈ frontier)) as [Hf | Hf].
           ++ intros x Hx. destruct (decide (x ∈ seen)); [set_solver |].
              apply elem_of_union_r, elem_of_difference. split; [| done].
              apply elem_of_set_bind. eauto.
           ++ specialize (Hold v Hv Hf). set_solver.
        -- set_solver.
        -- intros k Hk. destruct (decide (k = d)) as [-> | Hne].
           ++ by rewrite <- Hseen.
           ++ apply Hlt. lia.
      * rewrite size_union by set_solver.
        assert (size (set_bind (adj G) frontier ∖ seen) ≠ 0)%nat
          by (by rewrite size_empty_iff; intros ?%leibniz_equiv).
        lia.
Qed.

Lemma bfs_inv_init : bfs_inv G s t {[s]} {[s]} 0.
Proof.
  unfold bfs_inv. split_and!; [done | done | set_solver | done |].
  intros k Hk. lia.
Qed.

(** The search from [s] finds the distance to [t]. *)
Lemma bfs_distance :
  distance_is G s t (bfs G (size G) {[s]} {[s]} t 0).
Proof.
  pose proof (bfs_inv_ball (size G) {[s]} {[s]} 0 bfs_inv_init) as H.
  rewrite size_singleton in H. specialize (H ltac:(lia)).
  destruct (bfs G (size G) {[s]} {[s]} t 0) as [r |]; simpl.
  - destruct H as [Hr Hmin]. apply ball_walk in Hr as (n & Hn & Hw).
    assert (n = r) as ->.
    { destruct (decide (n = r)); [done |]. exfalso.
      apply (Hmin n); [lia |]. apply ball_walk. eauto. }
    split; [done |]. intros m Hm.
    destruct (decide (r ≤ m)%nat); [done |]. exfalso.
    apply (Hmin m); [lia |]. apply ball_walk. eauto.
  - intros n Hw. apply (H n). apply ball_walk. eauto.
Qed.
End bfs_correct.

Lemma distance_is_unique G s t r1 r2 :
  distance_is G s t r1 → distance_is G s t r2 → r1 = r2.
Proof.
  destruct r1 as [d1 |], r2 as [d2 |]; simpl.
  - intros [Hw1 Hm1] [Hw2 Hm2]. f_equal.
    apply Hm1 in Hw2. apply Hm2 in Hw1. lia.
  - intros [Hw _] Hn. by apply Hn in Hw.
  - intros Hn [Hw _]. by apply Hn in Hw.
  - done.
Qed.

(** In an undirected graph a walk can be read backwards. *)
Lemma walk_reverse G s n t : graph_wf G → walk G s n t → walk G t n s.
Proof.
  intros Hwf Hw. induction Hw as [| n v w Hw IH Hvw].
  - constructor.
  - eapply walk_cons; [| done]. by apply graph_wf_sym.
Qed.

Lemma distance_is_sym G s t r :
  graph_wf G → distance_is G s t r → distance_is G t s r.
Proof.
  intros Hwf. destruct r as [d |]; simpl.
  - intros [Hw Hmin]. split; [by apply walk_reverse |].
    intros n Hn. by apply Hmin, walk_reverse.
  - intros Hn n Hw. by apply (Hn n), walk_reverse.
Qed.

Lemma shortest_path_length_sym G a b :
  graph_wf G → shortest_path_length G a b = shortest_path_length G b a.
Proof.
  intros Hwf. unfold shortest_path_length.
  rewrite (andb_comm (has_node G b)).
  destruct (has_node G a) eqn:Ha, (has_node G b) eqn:Hb; simpl; try done.
  apply has_node_true in Ha, Hb.
  pose proof (bfs_distance G Hwf a b Ha) as H1.
  pose proof (bfs_distance G Hwf b a Hb) as H2.
  apply distance_is_sym in H2; [| done].
  by rewrite (distance_is_unique _ _ _ _ _ H1 H2).
Qed.

Lemma neighbors_node G n : has_node G n = true → neighbors G n = Ok (adj G n).
Proof.
  intros [nu Hn]%has_node_true. unfold neighbors, adj. by rewrite Hn.
Qed.

Lemma common_neighbors_node G a b :
  has_node G a = true → has_node G b = true →
  common_neighbors G a b = Ok (elements ((adj G a ∩ adj G b) ∖ {[a; b]})).
Proof. intros Ha Hb. unfold common_neighbors. by rewrite Ha, Hb. Qed.

Lemma elem_of_common_neighbors G a b l w :
  common_neighbors G a b = Ok l →
  w ∈ l ↔ w ∈ adj G a ∧ w ∈ adj G b ∧ w ≠ a ∧ w ≠ b.
Proof.
  unfold common_neighbors. destruct (has_node G a && has_node G b); [| done].
  intros [= <-]. rewrite elem_of_elements. set_solver.
Qed.

Lemma custom_jaccard_coefficient_node G a b :
  has_node G a = true → has_node G b = true →
  custom_jaccard_coefficient G a b = Ok (jaccard_of (adj G a) (adj G b)).
Proof.
  intros Ha Hb. unfold custom_jaccard_coefficient, jaccard_of.
  rewrite (neighbors_node G a Ha), (neighbors_node G b Hb).
  by case_bool_decide.
Qed.

Lemma custom_adamic_adar_index_common G a b common :
  common_neighbors G a b = Ok common →
  custom_adamic_adar_index G a b = Ok (adamic_adar_sum G common).
Proof.
  intros H. unfold custom_adamic_adar_index. rewrite H.
  by destruct common.
Qed.

Lemma custom_resource_allocation_index_common G a b common :
  common_neighbors G a b = Ok common →
  custom_resource_allocation_index G a b = Ok (resource_allocation_sum G common).
Proof.
  intros H. unfold custom_resource_allocation_index. rewrite H.
  by destruct common.
Qed.

Lemma shortest_path_length_node G a b :
  has_node G a = true → has_node G b = true →
  shortest_path_length G a b =
  match bfs G (size G) {[a]} {[a]} b 0 with
  | Some d => Ok (Z.of_nat d)
  | None => Raise NetworkXNoPath
  end.
Proof. intros Ha Hb. unfold shortest_path_length. by rewrite Ha, Hb. Qed.

Lemma has_node_insert (G : Graph) n s x :
  has_node G n = true → has_node (<[n := s]> G) x = has_node G x.
Proof.
  intros Hn%has_node_true. unfold has_node. apply bool_decide_ext.
  rewrite lookup_insert_is_Some. destruct (decide (n = x)); naive_solver.
Qed.

Lemma has_node_add_edge a b G x :
  has_node G a = true → has_node G b = true →
  has_node (add_edge a b G) x = has_node G x.
Proof.
  intros Ha Hb. unfold add_edge.
  rewrite has_node_insert; [by rewrite has_node_insert |].
  by rewrite has_node_insert.
Qed.

Lemma remove_edge_nodes a b G r G' :
  has_node G a = true → has_node G b = true →
  remove_edge a b G = (r, G') → ∀ x, has_node G' x = has_node G x.
Proof.
  intros Ha Hb. unfold remove_edge.
  repeat case_bool_decide; intros [= <- <-] x;
    rewrite ?has_node_insert; rewrite ?has_node_insert; done.
Qed.

(** The path step never raises, and leaves the node set alone. *)
Lemma path_length_step_total a b G :
  has_node G a = true → has_node G b = true →
  ∃ pl G', path_length_step a b G = (Ok pl, G') ∧
           ∀ x, has_node G' x = has_node G x.
Proof.
  intros Ha Hb.
  unfold path_length_step, path_length_block. unfold_M.
  destruct (has_edge G a b).
  - destruct (remove_edge a b G) as [[[] | e] G1] eqn:Hrm.
    + pose proof (remove_edge_nodes a b G _ _ Ha Hb Hrm) as Hn.
      rewrite shortest_path_length_node by (by rewrite Hn).
      destruct (bfs G1 _ _ _ _ _); simpl.
      * eexists _, _. split; [done |]. intros x.
        rewrite has_node_add_edge by (by rewrite Hn). apply Hn.
      * eexists _, _. split; [done |]. apply Hn.
    + pose proof (remove_edge_nodes a b G _ _ Ha Hb Hrm) as Hn.
      assert (e = NetworkXError) as ->.
      { unfold remove_edge in Hrm. repeat case_bool_decide; congruence. }
      simpl. eauto.
  - rewrite shortest_path_length_node by done.
    destruct (bfs G _ _ _ _ _); simpl; eauto.
Qed.

(** On a well-formed graph: the distance is measured with the edge between
    the two nodes taken out, and the edge is put back only when a path was
    found. *)
Lemma path_length_step_wf a b G :
  graph_wf G → has_node G a = true → has_node G b = true →
  path_length_step a b G =
  if has_edge G a b then
    let G1 := delete_edge a b G in
    match shortest_path_length G1 a b with
    | Ok d => (Ok d, G)
    | Raise _ => (Ok (-1), G1)
    end
  else (Ok (or_sentinel (shortest_path_length G a b)), G).
Proof.
  intros Hwf Ha Hb.
  unfold path_length_step, path_length_block. unfold_M.
  destruct (has_edge G a b) eqn:Hab.
  - apply has_edge_true in Hab.
    rewrite remove_edge_present by done. simpl.
    rewrite shortest_path_length_node
      by (by rewrite has_node_delete_edge).
    destruct (bfs _ _ _ _ _ _); simpl; [| done].
    by rewrite add_delete_edge.
  - rewrite shortest_path_length_node by done.
    by destruct (bfs _ _ _ _ _ _).
Qed.

Lemma shared_neighbors_step_node a b G :
  has_node G a = true → has_node G b = true →
  shared_neighbors_step a b G = (Ok (shared_ratio_of (adj G a) (adj G b)), G).
Proof.
  intros Ha Hb.
  unfold shared_neighbors_step, shared_neighbors_block, shared_ratio_of.
  unfold_M.
  rewrite (neighbors_node G a Ha), (neighbors_node G b Hb).
  by case_bool_decide.
Qed.

(** [extract_features] on two nodes of the graph, step by step. *)
Lemma extract_features_present nf a b G :
  has_node G a = true → has_node G b = true →
  ∃ common pl G',
    common_neighbors G a b = Ok common ∧
    path_length_step a b G = (Ok pl, G') ∧
    (∀ x, has_node G' x = has_node G x) ∧
    extract_features nf a b G =
    match attribute_step nf a b with
    | Ok attribute_features =>
        (Ok ([IZR (Z.of_nat (length common));
              jaccard_of (adj G a) (adj G b);
              IZR (degree G a * degree G b);
              adamic_adar_sum G common;
              resource_allocation_sum G common;
              IZR pl]
             ++ attribute_features
             ++ [shared_ratio_of (adj G' a) (adj G' b)]), G')
    | Raise e => (Raise e, G')
    end.
Proof.
  intros Ha Hb.
  destruct (path_length_step_total a b G Ha Hb) as (pl & G' & Hpl & Hn).
  exists (elements ((adj G a ∩ adj G b) ∖ {[a; b]})), pl, G'.
  pose proof (common_neighbors_node G a b Ha Hb) as Hcn.
  split_and!; try done.
  pose proof (shared_neighbors_step_node a b G') as Hsh.
  rewrite !Hn in Hsh. specialize (Hsh Ha Hb).
  unfold path_length_step, mret, M_ret in Hpl.
  unfold shared_neighbors_step, mret, M_ret in Hsh.
  unfold extract_features, mbind, M_bind, mret, M_ret, current, query.
  rewrite Ha, Hb. cbn [negb orb]. cbv beta iota.
  rewrite Hcn, (custom_jaccard_coefficient_node G a b Ha Hb).
  rewrite (custom_adamic_adar_index_common _ _ _ _ Hcn).
  rewrite (custom_resource_allocation_index_common _ _ _ _ Hcn).
  rewrite Hpl. unfold attribute_step.
  destruct (nf !! a) as [vec1 |], (nf !! b) as [vec2 |];
    try (rewrite Hsh; reflexivity).
  destruct (cosine_similarity vec1 vec2); [| done].
  rewrite Hsh. reflexivity.
Qed.

(** * The attribute part *)

Lemma equal_lengths_lookup nf i j u v :
  equal_lengths nf → nf !! i = Some u → nf !! j = Some v → length u = length v.
Proof. intros H Hu Hv. exact (H i u Hu j v Hv). Qed.

Lemma cosine_similarity_total u v :
  length u = length v → ∃ c, cosine_similarity u v = Ok c.
Proof.
  intros Hlen. unfold cosine_similarity, np_dot.
  rewrite bool_decide_eq_true_2 by done.
  destruct (Rlt_dec _ _); eauto.
Qed.

Lemma attribute_step_total nf a b :
  (∀ u v, nf !! a = Some u → nf !! b = Some v → length u = length v) →
  ∃ x y z, attribute_step nf a b = Ok [x; y; z].
Proof.
  intros Hlen. unfold attribute_step.
  destruct (nf !! a) as [u |], (nf !! b) as [v |]; eauto.
  destruct (cosine_similarity_total u v) as [c ->]; eauto.
Qed.

Lemma attribute_step_length nf a b af :
  attribute_step nf a b = Ok af → length af = 3%nat.
Proof.
  unfold attribute_step.
  destruct (nf !! a), (nf !! b); try (by intros [= <-]).
  destruct (cosine_similarity _ _); [by intros [= <-] | done].
Qed.

Lemma attribute_step_absent nf a b :
  nf !! a = None ∨ nf !! b = None →
  attribute_step nf a b = Ok [0%R; 0%R; 0%R].
Proof.
  unfold attribute_step. intros [-> | ->]; [done |].
  by destruct (nf !! a).
Qed.

(** * Totality and the fallback for absent nodes *)

Lemma extract_features_absent nf a b G :
  has_node G a = false ∨ has_node G b = false →
  extract_features nf a b G = (Ok (replicate 10 0%R), G).
Proof.
  intros H. unfold extract_features, mbind, M_bind, mret, M_ret, current.
  destruct H as [-> | ->]; [done |]. by rewrite orb_true_r.
Qed.

(** C2: [extract_features] returns, for every pair of ids, a list of ten
    numbers, on every graph and every attribute table whose vectors have one
    length; when one of the two ids is not a node of the graph the list is
    ten zeros and the graph is the one passed in. *)
Theorem extract_features_total nf G a b :
  equal_lengths nf →
  ∃ features G',
    extract_features nf a b G = (Ok features, G') ∧
    length features = 10%nat ∧
    (has_node G a = false ∨ has_node G b = false →
     features = replicate 10 0%R ∧ G' = G).
Proof.
  intros Hlen.
  destruct (has_node G a) eqn:Ha; [destruct (has_node G b) eqn:Hb |].
  - destruct (extract_features_present nf a b G Ha Hb)
      as (common & pl & G' & _ & _ & _ & ->).
    destruct (attribute_step_total nf a b) as (x & y & z & ->).
    { intros u v. by apply equal_lengths_lookup. }
    eexists _, _. split; [done |]. split; [done |].
    intros [? | ?]; discriminate.
  - rewrite extract_features_absent by auto.
    eexists _, _. split; [done |]. split; [done |]. done.
  - rewrite extract_features_absent by auto.
    eexists _, _. split; [done |]. split; [done |]. done.
Qed.

Lemma extract_features_total_witness :
  ∃ features G',
    extract_features table3 1 99 isolated3 = (Ok features, G') ∧
    length features = 10%nat ∧
    (has_node isolated3 1 = false ∨ has_node isolated3 99 = false →
     features = replicate 10 0%R ∧ G' = isolated3).
Proof.
  apply (extract_features_total table3 isolated3 1 99).
  apply (bool_decide_unpack _). vm_compute. exact I.
Defined.

(** * The shortest-path component *)

Lemma path_length_step_no_edge a b G :
  has_node G a = true → has_node G b = true → has_edge G a b = false →
  path_length_step a b G = (Ok (or_sentinel (shortest_path_length G a b)), G).
Proof.
  intros Ha Hb Hab.
  unfold path_length_step, path_length_block. unfold_M.
  rewrite Hab. rewrite shortest_path_length_node by done.
  by destruct (bfs _ _ _ _ _ _).
Qed.

Lemma shortest_path_length_self G n :
  has_node G n = true → shortest_path_length G n n = Ok 0.
Proof.
  intros Hn. rewrite shortest_path_length_node by done.
  destruct (size G); simpl; by rewrite bool_decide_eq_true_2 by set_solver.
Qed.

Lemma has_edge_delete_edge a b G u v :
  has_edge (delete_edge a b G) u v = true ↔
  has_edge G u v = true ∧ ¬ (u = a ∧ v = b) ∧ ¬ (u = b ∧ v = a).
Proof.
  rewrite !has_edge_true, adj_delete_edge.
  repeat case_decide; subst; set_solver.
Qed.

Lemma shortest_path_length_distance G a b :
  graph_wf G → has_node G a = true → has_node G b = true →
  ∃ r, distance_is G a b r ∧
       or_sentinel (shortest_path_length G a b) =
       match r with Some d => Z.of_nat d | None => -1 end.
Proof.
  intros Hwf Ha Hb. rewrite shortest_path_length_node by done.
  exists (bfs G (size G) {[a]} {[a]} b 0). split.
  - apply bfs_distance; [done |]. by apply has_node_true.
  - by destruct (bfs _ _ _ _ _ _).
Qed.

Lemma path_length_step_value a b G :
  graph_wf G → has_node G a = true → has_node G b = true →
  ∃ G', path_length_step a b G =
        (Ok (or_sentinel (shortest_path_length
                            (if has_edge G a b then delete_edge a b G else G)
                            a b)), G').
Proof.
  intros Hwf Ha Hb. rewrite path_length_step_wf by done.
  destruct (has_edge G a b); [| eauto].
  cbv zeta. destruct (shortest_path_length _ a b); simpl; eauto.
Qed.

(** C9: for a node [n] of the graph without a self-loop,
    [extract_features] on the pair [(n, n)] returns ten components, the
    shortest-path one being [0] and not the sentinel [-1]. *)
Theorem extract_features_self_pair nf G n :
  has_node G n = true → has_edge G n n = false →
  ∃ features G',
    extract_features nf n n G = (Ok features, G') ∧
    length features = 10%nat ∧
    features !! 5%nat = Some 0%R.
Proof.
  intros Hn Hloop.
  destruct (extract_features_present nf n n G Hn Hn)
    as (common & pl & G' & _ & Hpl & _ & ->).
  rewrite path_length_step_no_edge, shortest_path_length_self in Hpl by done.
  injection Hpl as <- <-.
  destruct (attribute_step_total nf n n) as (x & y & z & ->).
  { intros u v Hu Hv. congruence. }
  eexists _, _. split; [done |]. split; done.
Qed.

Lemma extract_features_self_pair_witness :
  ∃ features G',
    extract_features table3 1 1 bridge = (Ok features, G') ∧
    length features = 10%nat ∧
    features !! 5%nat = Some 0%R.
Proof.
  apply (extract_features_self_pair table3 bridge 1);
    vm_compute; reflexivity.
Defined.

(** C3: on two nodes of the graph, the shortest-path component is the
    length of a shortest walk between them (or [-1] when there is none) in
    the graph from which the edge between the two, when there is one, has
    been taken out by [remove_edge], and no other edge; without such an
    edge it is measured on the graph as it is. On the triangle 1-2, 2-3,
    1-3 the component for the pair (1, 3) is 2. *)
Theorem shortest_path_component_excludes_edge nf G a b :
  graph_wf G → equal_lengths nf →
  has_node G a = true → has_node G b = true →
  (has_edge G a b = true →
   remove_edge a b G = (Ok tt, delete_edge a b G)) ∧
  (∀ u v, has_edge (delete_edge a b G) u v = true ↔
          has_edge G u v = true ∧ ¬ (u = a ∧ v = b) ∧ ¬ (u = b ∧ v = a)) ∧
  (∃ features G' r,
     extract_features nf a b G = (Ok features, G') ∧
     distance_is (if has_edge G a b then delete_edge a b G else G) a b r ∧
     features !! 5%nat =
     Some (IZR (or_sentinel
                  (shortest_path_length
                     (if has_edge G a b then delete_edge a b G else G) a b))) ∧
     features !! 5%nat =
     Some (IZR (match r with Some d => Z.of_nat d | None => -1 end))) ∧
  (∃ features G',
     extract_features nf 1 3 triangle = (Ok features, G') ∧
     features !! 5%nat = Some 2%R).
Proof.
  intros Hwf Hlen Ha Hb. split; [| split; [| split]].
  - intros Hab. apply remove_edge_present; [done |]. by apply has_edge_true.
  - intros u v. apply has_edge_delete_edge.
  - destruct (extract_features_present nf a b G Ha Hb)
      as (common & pl & G' & _ & Hpl & _ & ->).
    destruct (path_length_step_value a b G Hwf Ha Hb) as [G'' Hval].
    rewrite Hval in Hpl. injection Hpl as <- <-.
    destruct (attribute_step_total nf a b) as (x & y & z & ->).
    { intros u v. by apply equal_lengths_lookup. }
    destruct (shortest_path_length_distance
                (if has_edge G a b then delete_edge a b G else G) a b)
      as (r & Hr & Heq).
    + destruct (has_edge G a b) eqn:Hab; [| done].
      apply graph_wf_delete_edge; [done |]. by apply has_edge_true.
    + destruct (has_edge G a b); [| done]. by rewrite has_node_delete_edge.
    + destruct (has_edge G a b); [| done]. by rewrite has_node_delete_edge.
    + eexists _, _, r. split; [done |]. split; [done |].
      split; [done |]. simpl. by rewrite Heq.
  - assert (has_node triangle 1 = true) as H1 by by_evaluation.
    assert (has_node triangle 3 = true) as H3 by by_evaluation.
    destruct (extract_features_present nf 1 3 triangle H1 H3)
      as (common & pl & G' & _ & Hpl & _ & ->).
    rewrite path_length_step_wf in Hpl; [| | done | done].
    2: { apply (bool_decide_unpack _). vm_compute. exact I. }
    assert (has_edge triangle 1 3 = true) as He by by_evaluation.
    assert (shortest_path_length (delete_edge 1 3 triangle) 1 3 = Ok 2) as Hd
      by by_evaluation.
    rewrite He in Hpl. cbv zeta in Hpl. rewrite Hd in Hpl.
    injection Hpl as <- <-.
    destruct (attribute_step_total nf 1 3) as (x & y & z & ->).
    { intros u v. by apply equal_lengths_lookup. }
    eexists _, _. split; done.
Qed.

Lemma shortest_path_component_excludes_edge_witness :
  (has_edge triangle 1 3 = true →
   remove_edge 1 3 triangle = (Ok tt, delete_edge 1 3 triangle)) ∧
  (∀ u v, has_edge (delete_edge 1 3 triangle) u v = true ↔
          has_edge triangle u v = true ∧ ¬ (u = 1 ∧ v = 3) ∧ ¬ (u = 3 ∧ v = 1)) ∧
  (∃ features G' r,
     extract_features table3 1 3 triangle = (Ok features, G') ∧
     distance_is (if has_edge triangle 1 3 then delete_edge 1 3 triangle
                  else triangle) 1 3 r ∧
     features !! 5%nat =
     Some (IZR (or_sentinel
                  (shortest_path_length
                     (if has_edge triangle 1 3 then delete_edge 1 3 triangle
                      else triangle) 1 3))) ∧
     features !! 5%nat =
     Some (IZR (match r with Some d => Z.of_nat d | None => -1 end))) ∧
  (∃ features G',
     extract_features table3 1 3 triangle = (Ok features, G') ∧
     features !! 5%nat = Some 2%R).
Proof.
  apply (shortest_path_component_excludes_edge table3 triangle 1 3).
  - apply (bool_decide_unpack _). vm_compute. exact I.
  - apply (bool_decide_unpack _). vm_compute. exact I.
  - vm_compute. reflexivity.
  - vm_compute. reflexivity.
Defined.

(** * What the call leaves of the graph *)

Lemma extract_features_final_graph nf a b G :
  graph_wf G → has_node G a = true → has_node G b = true →
  (extract_features nf a b G).2 =
  if has_edge G a b then
    match shortest_path_length (delete_edge a b G) a b with
    | Ok _ => G
    | Raise _ => delete_edge a b G
    end
  else G.
Proof.
  intros Hwf Ha Hb.
  destruct (extract_features_present nf a b G Ha Hb)
    as (common & pl & G' & _ & Hpl & _ & ->).
  rewrite path_length_step_wf in Hpl by done.
  assert ((match attribute_step nf a b with
           | Ok af => (Ok ([IZR (Z.of_nat (length common));
                            jaccard_of (adj G a) (adj G b);
                            IZR (degree G a * degree G b);
                            adamic_adar_sum G common;
                            resource_allocation_sum G common; IZR pl]
                           ++ af ++ [shared_ratio_of (adj G' a) (adj G' b)]),
                       G')
           | Raise e => (Raise e, G')
           end).2 = G') as -> by (by destruct (attribute_step nf a b)).
  destruct (has_edge G a b); [| congruence].
  cbv zeta in Hpl.
  destruct (shortest_path_length (delete_edge a b G) a b); congruence.
Qed.

(** When the two endpoints stay connected without their edge, the graph is
    given back as it was. *)
Lemma extract_features_restores_connected nf a b G d :
  graph_wf G → has_node G a = true → has_node G b = true →
  shortest_path_length (delete_edge a b G) a b = Ok d →
  (extract_features nf a b G).2 = G.
Proof.
  intros Hwf Ha Hb Hd.
  rewrite extract_features_final_graph, Hd by done.
  by destruct (has_edge G a b).
Qed.

(** When the edge is the only connection between its endpoints, the call
    returns with the edge gone. *)
Lemma extract_features_drops_bridge nf a b G e :
  graph_wf G → has_edge G a b = true →
  shortest_path_length (delete_edge a b G) a b = Raise e →
  has_edge (extract_features nf a b G).2 a b = false.
Proof.
  intros Hwf Hab He.
  assert (has_node G a = true) as Ha.
  { apply has_node_true. apply has_edge_true in Hab.
    by eapply elem_of_adj_node. }
  assert (has_node G b = true) as Hb.
  { apply has_node_true. apply has_edge_true in Hab.
    by destruct (graph_wf_adj G a b Hwf Hab). }
  rewrite extract_features_final_graph, Hab, He by done.
  apply not_true_is_false. rewrite has_edge_delete_edge. tauto.
Qed.

(** C1 at the graph with the two nodes 1, 2 and the single edge 1-2: the
    edge is present before [extract_features] runs on the pair (1, 2) and
    absent when it has returned; the call returns normally, with [-1] as
    its shortest-path component. *)
Theorem extract_features_bridge_edge_lost :
  has_edge bridge 1 2 = true ∧
  ∃ features G',
    extract_features table3 1 2 bridge = (Ok features, G') ∧
    features !! 5%nat = Some (-1)%R ∧
    has_edge G' 1 2 = false.
Proof.
  split; [vm_compute; reflexivity |].
  assert (has_node bridge 1 = true) as H1 by by_evaluation.
  assert (has_node bridge 2 = true) as H2 by by_evaluation.
  destruct (extract_features_present table3 1 2 bridge H1 H2)
    as (common & pl & G' & _ & Hpl & _ & ->).
  rewrite path_length_step_wf in Hpl; [| | done | done].
  2: { apply (bool_decide_unpack _). vm_compute. exact I. }
  assert (has_edge bridge 1 2 = true) as He by by_evaluation.
  assert (shortest_path_length (delete_edge 1 2 bridge) 1 2
          = Raise NetworkXNoPath) as Hd by by_evaluation.
  rewrite He in Hpl. cbv zeta in Hpl. rewrite Hd in Hpl.
  injection Hpl as <- <-.
  destruct (attribute_step_total table3 1 2) as (x & y & z & ->).
  { intros u v. apply equal_lengths_lookup.
    apply (bool_decide_unpack _). vm_compute. exact I. }
  eexists _, _. split; [done |]. split; [done |].
  vm_compute. reflexivity.
Qed.

(** * Jaccard coefficient and shared-neighbours ratio *)

Lemma size_union_inter (X Y : gset Z) :
  (size (X ∪ Y) + size (X ∩ Y) = size X + size Y)%nat.
Proof.
  rewrite size_union_alt.
  assert (size Y = size (Y ∖ X) + size (X ∩ Y))%nat as ->; [| lia].
  rewrite <- size_union by set_solver. f_equal. apply set_eq. intros x.
  destruct (decide (x ∈ X)); set_solver.
Qed.

(** On one and the same pair of neighbour sets the two formulas agree. *)
Lemma jaccard_of_shared_ratio_of (n1 n2 : gset Z) :
  jaccard_of n1 n2 = shared_ratio_of n1 n2.
Proof.
  unfold jaccard_of, shared_ratio_of.
  pose proof (size_union_inter n1 n2) as H.
  assert (size n1 ≤ size (n1 ∪ n2))%nat as Hle1
    by (apply subseteq_size; set_solver).
  assert (size n2 ≤ size (n1 ∪ n2))%nat as Hle2
    by (apply subseteq_size; set_solver).
  repeat case_bool_decide; try lia; [done |].
  do 2 f_equal. lia.
Qed.

Lemma jaccard_of_disjoint (n1 n2 : gset Z) : n1 ∩ n2 = ∅ → jaccard_of n1 n2 = 0%R.
Proof.
  intros H. unfold jaccard_of. rewrite H, size_empty.
  case_bool_decide; [done |]. simpl. unfold Rdiv. apply Rmult_0_l.
Qed.

Lemma shared_ratio_of_disjoint (n1 n2 : gset Z) :
  n1 ∩ n2 = ∅ → shared_ratio_of n1 n2 = 0%R.
Proof.
  intros H. rewrite <- jaccard_of_shared_ratio_of. by apply jaccard_of_disjoint.
Qed.

(** A common neighbour other than the endpoints keeps them connected when
    their edge is taken out. *)
Lemma common_neighbor_connects a b w G :
  graph_wf G → has_node G a = true → has_node G b = true →
  w ∈ adj G a → w ∈ adj G b → w ≠ a → w ≠ b →
  ∃ d, shortest_path_length (delete_edge a b G) a b = Ok d.
Proof.
  intros Hwf Ha Hb Hwa Hwb Hna Hnb.
  rewrite shortest_path_length_node by (by rewrite has_node_delete_edge).
  assert (is_Some (G !! b)) as Hb' by (by apply has_node_true).
  assert (is_Some (G !! a)) as Ha' by (by apply has_node_true).
  destruct (decide (b ∈ adj G a)) as [Hab | Hab].
  - pose proof (bfs_distance (delete_edge a b G)
                  (graph_wf_delete_edge a b G Hwf Hab) a b) as Hd.
    rewrite lookup_delete_edge_is_Some in Hd by done. specialize (Hd Ha').
    destruct (bfs _ _ _ _ _ _) as [d |]; [eauto |].
    exfalso. apply (Hd 2%nat).
    eapply walk_snoc; [eapply walk_snoc; [apply walk_nil |] |].
    + instantiate (1 := w). rewrite adj_delete_edge.
      rewrite decide_True by done. set_solver.
    + rewrite adj_delete_edge. rewrite decide_False by done.
      rewrite decide_False by done. by apply graph_wf_sym.
  - assert (delete_edge a b G = G) as ->.
    { apply graph_eq; intros x.
      - by apply lookup_delete_edge_is_Some.
      - rewrite adj_delete_edge. repeat case_decide; subst; [| | done].
        + set_solver.
        + assert (a ∉ adj G b); [| set_solver].
          intros ?. by apply Hab, graph_wf_sym. }
    pose proof (bfs_distance G Hwf a b Ha') as Hd.
    destruct (bfs _ _ _ _ _ _) as [d |]; [eauto |].
    exfalso. apply (Hd 2%nat).
    eapply walk_snoc; [eapply walk_snoc; [apply walk_nil |] |].
    + exact Hwa.
    + by apply graph_wf_sym.
Qed.

(** On a graph without self-loops the second and the last component of
    the extracted list are equal. *)
Lemma jaccard_eq_shared_ratio_loop_free nf G a b features G' :
  graph_wf G → loop_free G →
  has_node G a = true → has_node G b = true →
  extract_features nf a b G = (Ok features, G') →
  features !! 1%nat = features !! 9%nat.
Proof.
  intros Hwf Hlf Ha Hb Hex.
  pose proof (extract_features_final_graph nf a b G Hwf Ha Hb) as Hfin.
  rewrite Hex in Hfin. simpl in Hfin.
  destruct (extract_features_present nf a b G Ha Hb)
    as (common & pl & G'' & _ & _ & _ & Heq).
  rewrite Hex in Heq.
  destruct (attribute_step nf a b) as [af |] eqn:Haf; [| discriminate].
  injection Heq as -> <-.
  apply attribute_step_length in Haf.
  destruct af as [| x [| y [| z [| ? ?]]]]; try discriminate. simpl.
  f_equal.
  destruct (has_edge G a b) eqn:Hab;
    [| subst; apply jaccard_of_shared_ratio_of].
  destruct (shortest_path_length (delete_edge a b G) a b) as [d | e] eqn:Hd;
    [subst; apply jaccard_of_shared_ratio_of |].
  assert (adj G a ∩ adj G b = ∅) as Hdisj.
  { apply set_eq. intros w. split; [| set_solver].
    intros [Hwa Hwb]%elem_of_intersection. exfalso.
    assert (w ≠ a).
    { intros ->. destruct (elem_of_adj_node _ _ _ Hwa) as [na Hna].
      rewrite (adj_lookup _ _ _ Hna) in Hwa. by apply (Hlf a na Hna). }
    assert (w ≠ b).
    { intros ->. destruct (elem_of_adj_node _ _ _ Hwb) as [nb Hnb].
      rewrite (adj_lookup _ _ _ Hnb) in Hwb. by apply (Hlf b nb Hnb). }
    destruct (common_neighbor_connects a b w G) as [d' Hd']; try done.
    congruence. }
  rewrite jaccard_of_disjoint by done.
  rewrite shared_ratio_of_disjoint; [done |].
  subst G'. rewrite !adj_delete_edge.
  repeat case_decide; subst; set_solver.
Qed.

(** C4 at the graph with the self-loop 1-1 and the edge 1-2, for the pair
    (1, 2): the Jaccard component is 1/2 (computed before the edge 1-2 is
    taken out for the distance query) and the shared-neighbours ratio is
    0 (computed after, on the graph from which the edge is still
    missing). *)
Theorem jaccard_differs_from_shared_ratio :
  graph_wf looped ∧
  ∃ features G',
    extract_features table3 1 2 looped = (Ok features, G') ∧
    features !! 1%nat = Some (1 / 2)%R ∧
    features !! 9%nat = Some 0%R ∧
    features !! 1%nat ≠ features !! 9%nat ∧
    has_edge looped 1 2 = true ∧ has_edge G' 1 2 = false.
Proof.
  assert (graph_wf looped) as Hwf
    by by_evaluation.
  split; [done |].
  assert (has_node looped 1 = true) as H1 by by_evaluation.
  assert (has_node looped 2 = true) as H2 by by_evaluation.
  destruct (extract_features_present table3 1 2 looped H1 H2)
    as (common & pl & G' & _ & Hpl & _ & ->).
  rewrite path_length_step_wf in Hpl by done.
  assert (has_edge looped 1 2 = true) as He by by_evaluation.
  assert (shortest_path_length (delete_edge 1 2 looped) 1 2
          = Raise NetworkXNoPath) as Hd by by_evaluation.
  rewrite He in Hpl. cbv zeta in Hpl. rewrite Hd in Hpl.
  injection Hpl as <- <-.
  destruct (attribute_step_total table3 1 2) as (x & y & z & ->).
  { intros u v. apply equal_lengths_lookup.
    apply (bool_decide_unpack _). vm_compute. exact I. }
  assert (jaccard_of (adj looped 1) (adj looped 2) = (1 / 2)%R) as Hj.
  { unfold jaccard_of.
    assert (size (adj looped 1 ∪ adj looped 2) = 2%nat) as ->
      by by_evaluation.
    assert (size (adj looped 1 ∩ adj looped 2) = 1%nat) as ->
      by by_evaluation.
    done. }
  assert (shared_ratio_of (adj (delete_edge 1 2 looped) 1)
            (adj (delete_edge 1 2 looped) 2) = 0%R) as Hs.
  { apply shared_ratio_of_disjoint. apply (bool_decide_unpack _).
    vm_compute. exact I. }
  eexists _, _. split; [done |]. simpl. rewrite Hj, Hs.
  split_and!; try done.
  intros [= H]. lra.
Qed.

(** * Nodes without attributes *)

(** With a node missing from the attribute table the call returns the
    seven graph components, as the graph functions give them, around three
    zeros; the last one is computed on the graph the path step leaves. *)
Lemma attributes_absent_explicit nf G a b :
  has_node G a = true → has_node G b = true →
  nf !! a = None ∨ nf !! b = None →
  ∃ common pl G',
    common_neighbors G a b = Ok common ∧
    path_length_step a b G = (Ok pl, G') ∧
    extract_features nf a b G =
    (Ok [IZR (Z.of_nat (length common)); jaccard_of (adj G a) (adj G b);
         IZR (degree G a * degree G b); adamic_adar_sum G common;
         resource_allocation_sum G common; IZR pl;
         0%R; 0%R; 0%R; shared_ratio_of (adj G' a) (adj G' b)], G').
Proof.
  intros Ha Hb Habs.
  destruct (extract_features_present nf a b G Ha Hb)
    as (common & pl & G' & Hcn & Hpl & Hn & ->).
  rewrite attribute_step_absent by done.
  by exists common, pl, G'.
Qed.

(** * Common neighbours and their degrees *)

Lemma foldl_Rsum {A} (f : A → R) (P : A → bool) (l : list A) (acc : R) :
  foldl (λ score w, if P w then (score + f w)%R else score) acc l =
  (acc + Rsum (map f (filter (λ w, P w = true) l)))%R.
Proof.
  revert acc. induction l as [| w l IH]; intros acc; simpl.
  - lra.
  - rewrite IH. rewrite filter_cons. destruct (P w); simpl; [lra | done].
Qed.

Lemma adamic_adar_sum_filter G common :
  adamic_adar_sum G common =
  Rsum (map (λ w, 1 / ln (IZR (degree G w)))%R
          (filter (λ w, degree G w > 1) common)).
Proof.
  unfold adamic_adar_sum.
  rewrite (foldl_Rsum (λ w, 1 / ln (IZR (degree G w)))%R
             (λ w, bool_decide (degree G w > 1))).
  rewrite Rplus_0_l. do 2 f_equal.
  apply list_filter_iff. intros w. by rewrite bool_decide_eq_true.
Qed.

Lemma resource_allocation_sum_filter G common :
  resource_allocation_sum G common =
  Rsum (map (λ w, 1 / IZR (degree G w))%R
          (filter (λ w, degree G w > 0) common)).
Proof.
  unfold resource_allocation_sum.
  rewrite (foldl_Rsum (λ w, 1 / IZR (degree G w))%R
             (λ w, bool_decide (degree G w > 0))).
  rewrite Rplus_0_l. do 2 f_equal.
  apply list_filter_iff. intros w. by rewrite bool_decide_eq_true.
Qed.

Lemma adamic_adar_single_low G a b w :
  common_neighbors G a b = Ok [w] → degree G w ≤ 1 →
  custom_adamic_adar_index G a b = Ok 0%R.
Proof.
  intros Hcn Hdeg.
  rewrite (custom_adamic_adar_index_common G a b [w] Hcn).
  rewrite adamic_adar_sum_filter, filter_cons, filter_nil.
  by rewrite decide_False by lia.
Qed.

Lemma adamic_adar_single_two G a b w :
  common_neighbors G a b = Ok [w] → degree G w = 2 →
  custom_adamic_adar_index G a b = Ok (1 / ln 2)%R.
Proof.
  intros Hcn Hdeg.
  rewrite (custom_adamic_adar_index_common G a b [w] Hcn).
  rewrite adamic_adar_sum_filter, filter_cons, filter_nil.
  rewrite decide_True by lia. simpl. rewrite Hdeg. f_equal. lra.
Qed.

(** The two instances run on graphs: on the single edge 1-2 the pair
    (1, 1) has the one common neighbour 2, of degree 1; on the path 1-2-3
    the pair (1, 3) has the one common neighbour 2, of degree 2. *)
Lemma adamic_adar_degree_one :
  common_neighbors bridge 1 1 = Ok [2] ∧ degree bridge 2 = 1 ∧
  custom_adamic_adar_index bridge 1 1 = Ok 0%R.
Proof.
  assert (common_neighbors bridge 1 1 = Ok [2]) as Hcn
    by by_evaluation.
  assert (degree bridge 2 = 1) as Hdeg by by_evaluation.
  split; [done |]. split; [done |].
  apply (adamic_adar_single_low bridge 1 1 2); [done | lia].
Qed.

Lemma adamic_adar_degree_two :
  common_neighbors path3 1 3 = Ok [2] ∧ degree path3 2 = 2 ∧
  custom_adamic_adar_index path3 1 3 = Ok (1 / ln 2)%R.
Proof.
  assert (common_neighbors path3 1 3 = Ok [2]) as Hcn
    by by_evaluation.
  assert (degree path3 2 = 2) as Hdeg by by_evaluation.
  split; [done |]. split; [done |].
  by apply (adamic_adar_single_two path3 1 3 2).
Qed.

(** C6: the Adamic-Adar index is the sum of [1 / ln (degree w)] over the
    common neighbours [w] of degree above 1, the others adding nothing; a
    single common neighbour of degree at most 1 gives 0 and a single
    common neighbour of degree 2 gives [1 / ln 2]. *)
Theorem adamic_adar_degree_filter G a b common :
  common_neighbors G a b = Ok common →
  custom_adamic_adar_index G a b =
  Ok (Rsum (map (λ w, 1 / ln (IZR (degree G w)))%R
              (filter (λ w, degree G w > 1) common))) ∧
  (∀ w, common = [w] → degree G w ≤ 1 →
        custom_adamic_adar_index G a b = Ok 0%R) ∧
  (∀ w, common = [w] → degree G w = 2 →
        custom_adamic_adar_index G a b = Ok (1 / ln 2)%R).
Proof.
  intros Hcn. split; [| split].
  - rewrite (custom_adamic_adar_index_common G a b common Hcn).
    by rewrite adamic_adar_sum_filter.
  - intros w -> Hdeg. by apply (adamic_adar_single_low G a b w).
  - intros w -> Hdeg. by apply (adamic_adar_single_two G a b w).
Qed.

Lemma adamic_adar_degree_filter_witness :
  custom_adamic_adar_index path3 1 3 =
  Ok (Rsum (map (λ w, 1 / ln (IZR (degree path3 w)))%R
              (filter (λ w, degree path3 w > 1) [2]))) ∧
  (∀ w, [2] = [w] → degree path3 w ≤ 1 →
        custom_adamic_adar_index path3 1 3 = Ok 0%R) ∧
  (∀ w, [2] = [w] → degree path3 w = 2 →
        custom_adamic_adar_index path3 1 3 = Ok (1 / ln 2)%R).
Proof.
  apply (adamic_adar_degree_filter path3 1 3 [2]).
  vm_compute. reflexivity.
Defined.

Lemma filter_all {A} (P : A → Prop) `{∀ x, Decision (P x)} (l : list A) :
  (∀ x, x ∈ l → P x) → filter P l = l.
Proof.
  induction l as [| x l IH]; intros Hall; [done |].
  rewrite filter_cons, decide_True by (apply Hall; left).
  f_equal. apply IH. intros y Hy. apply Hall. by right.
Qed.

Lemma common_neighbor_degree_ge_2 G a b common w :
  graph_wf G → a ≠ b → common_neighbors G a b = Ok common → w ∈ common →
  (2 ≤ degree G w)%Z.
Proof.
  intros Hwf Hne Hcn Hw.
  apply (elem_of_common_neighbors G a b common w Hcn) in Hw
    as (Hwa & Hwb & _ & _).
  apply (graph_wf_sym G a w Hwf) in Hwa.
  apply (graph_wf_sym G b w Hwf) in Hwb.
  assert (2 ≤ size (adj G w))%nat as Hsize.
  { assert (size ({[a; b]} : gset Z) = 2%nat) as <-.
    { rewrite size_union by set_solver. by rewrite !size_singleton. }
    apply subseteq_size. set_solver. }
  unfold degree. case_bool_decide; lia.
Qed.

(** C10: on a graph with symmetric adjacency and for two different nodes,
    every common neighbour is adjacent to both and has degree at least 2;
    so neither the degree test of the Adamic-Adar index nor that of the
    resource-allocation index leaves a common neighbour out, and both sums
    run over all of them. *)
Theorem distinct_pair_filters_idle G a b common :
  graph_wf G → a ≠ b → common_neighbors G a b = Ok common →
  (∀ w, w ∈ common →
        has_edge G w a = true ∧ has_edge G w b = true ∧ (2 ≤ degree G w)%Z) ∧
  filter (λ w, degree G w > 1) common = common ∧
  filter (λ w, degree G w > 0) common = common ∧
  custom_adamic_adar_index G a b =
  Ok (Rsum (map (λ w, 1 / ln (IZR (degree G w)))%R common)) ∧
  custom_resource_allocation_index G a b =
  Ok (Rsum (map (λ w, 1 / IZR (degree G w))%R common)).
Proof.
  intros Hwf Hne Hcn.
  assert (∀ w, w ∈ common → (2 ≤ degree G w)%Z) as Hdeg
    by (intros w; by apply (common_neighbor_degree_ge_2 G a b)).
  assert (filter (λ w, degree G w > 1) common = common) as H1.
  { apply filter_all. intros w Hw. specialize (Hdeg w Hw). lia. }
  assert (filter (λ w, degree G w > 0) common = common) as H0.
  { apply filter_all. intros w Hw. specialize (Hdeg w Hw). lia. }
  split_and!; try done.
  - intros w Hw. split_and!; [| | by apply Hdeg].
    + apply has_edge_true.
      apply (elem_of_common_neighbors G a b common w Hcn) in Hw
        as (Hwa & _). by apply graph_wf_sym.
    + apply has_edge_true.
      apply (elem_of_common_neighbors G a b common w Hcn) in Hw
        as (_ & Hwb & _). by apply graph_wf_sym.
  - rewrite (custom_adamic_adar_index_common G a b common Hcn).
    by rewrite adamic_adar_sum_filter, H1.
  - rewrite (custom_resource_allocation_index_common G a b common Hcn).
    by rewrite resource_allocation_sum_filter, H0.
Qed.

Lemma distinct_pair_filters_idle_witness :
  (∀ w, w ∈ [2] →
        has_edge path3 w 1 = true ∧ has_edge path3 w 3 = true ∧
        (2 ≤ degree path3 w)%Z) ∧
  filter (λ w, degree path3 w > 1) [2] = [2] ∧
  filter (λ w, degree path3 w > 0) [2] = [2] ∧
  custom_adamic_adar_index path3 1 3 =
  Ok (Rsum (map (λ w, 1 / ln (IZR (degree path3 w)))%R [2])) ∧
  custom_resource_allocation_index path3 1 3 =
  Ok (Rsum (map (λ w, 1 / IZR (degree path3 w))%R [2])).
Proof.
  apply (distinct_pair_filters_idle path3 1 3 [2]).
  - apply (bool_decide_unpack _). vm_compute. exact I.
  - lia.
  - vm_compute. reflexivity.
Defined.

(** * The correlation component *)

Lemma Rsum_squares_nonneg (l : list R) : (0 <= Rsum (zip_with Rmult l l))%R.
Proof.
  induction l as [| x l IH]; simpl; [lra |].
  pose proof (Rle_0_sqr x) as Hx. unfold Rsqr in Hx. lra.
Qed.

Lemma codeviation_self_nonneg u : (0 <= codeviation u u)%R.
Proof. apply Rsum_squares_nonneg. Qed.

Lemma codeviation_short u : (length u ≤ 1)%nat → codeviation u u = 0%R.
Proof.
  destruct u as [| x [| y u]]; simpl; intros Hlen; [done | | lia].
  unfold codeviation, centered, mean. simpl. field.
Qed.

Lemma cov_codeviation x y :
  cov x y = (codeviation x y / (INR (length x) - 1))%R.
Proof. done. Qed.

Lemma cov_zero_iff x :
  (2 ≤ length x)%nat → cov x x = 0%R ↔ codeviation x x = 0%R.
Proof.
  intros Hlen. rewrite cov_codeviation.
  assert (2 <= INR (length x))%R as Hn by (apply (le_INR 2); lia).
  split.
  - intros H. apply Rmult_integral in H as [H | H]; [done |].
    exfalso. revert H. apply Rinv_neq_0_compat. lra.
  - intros ->. unfold Rdiv. apply Rmult_0_l.
Qed.

Lemma corrcoef_pearson u v :
  (2 ≤ length u)%nat → length u = length v →
  codeviation u u ≠ 0%R → codeviation v v ≠ 0%R →
  (cov u v / sqrt (cov u u) / sqrt (cov v v))%R = pearson u v.
Proof.
  intros Hlen Heq Hu Hv. unfold pearson. rewrite !cov_codeviation, <- Heq.
  assert (2 <= INR (length u))%R as Hn by (apply (le_INR 2); lia).
  set (k := (INR (length u) - 1)%R). assert (0 < k)%R as Hk by (unfold k; lra).
  pose proof (codeviation_self_nonneg u) as Hu0.
  pose proof (codeviation_self_nonneg v) as Hv0.
  rewrite !sqrt_div_alt by done.
  assert (0 < sqrt (codeviation u u))%R by (apply sqrt_lt_R0; lra).
  assert (0 < sqrt (codeviation v v))%R by (apply sqrt_lt_R0; lra).
  assert (0 < sqrt k)%R as Hsk by (by apply sqrt_lt_R0).
  assert (sqrt k * sqrt k = k)%R as Hkk by (apply sqrt_sqrt; lra).
  rewrite <- Hkk at 1. field. lra.
Qed.

Lemma Rsum_cauchy_schwarz (a b : list R) :
  (Rsum (zip_with Rmult a b) * Rsum (zip_with Rmult a b)
   <= Rsum (zip_with Rmult a a) * Rsum (zip_with Rmult b b))%R.
Proof.
  revert b. induction a as [| x a IH]; intros [| y b]; simpl.
  - lra.
  - lra.
  - pose proof (Rsum_squares_nonneg (x :: a)) as H. simpl in H. lra.
  - specialize (IH b).
    pose proof (Rsum_squares_nonneg a) as HA.
    pose proof (Rsum_squares_nonneg b) as HB.
    set (S := Rsum (zip_with Rmult a b)) in *.
    set (A := Rsum (zip_with Rmult a a)) in *.
    set (B := Rsum (zip_with Rmult b b)) in *.
    assert (2 * (x * y * S) <= x * x * B + A * (y * y))%R as Hmix.
    { destruct (Req_dec_T A 0) as [HA0 | HA0].
      - assert (S = 0)%R by nra. subst. nra.
      - assert (0 < A)%R by lra.
        assert (0 <= A * (x * x * B + A * (y * y) - 2 * (x * y * S)))%R.
        { pose proof (Rle_0_sqr (x * S - A * y)) as Hsq. unfold Rsqr in Hsq.
          nra. }
        nra. }
    nra.
Qed.

(** The coefficient lies between -1 and 1, so clipping does not change it. *)
Lemma pearson_bounds u v :
  codeviation u u ≠ 0%R → codeviation v v ≠ 0%R →
  (-1 <= pearson u v <= 1)%R.
Proof.
  intros Hu Hv. unfold pearson.
  pose proof (codeviation_self_nonneg u) as Hu0.
  pose proof (codeviation_self_nonneg v) as Hv0.
  pose proof (Rsum_cauchy_schwarz (centered u) (centered v)) as Hcs.
  fold (codeviation u v) (codeviation u u) (codeviation v v) in Hcs.
  assert (0 < sqrt (codeviation u u))%R as Hsu by (apply sqrt_lt_R0; lra).
  assert (0 < sqrt (codeviation v v))%R as Hsv by (apply sqrt_lt_R0; lra).
  pose proof (sqrt_sqrt (codeviation u u) Hu0) as Hsqu.
  pose proof (sqrt_sqrt (codeviation v v) Hv0) as Hsqv.
  set (su := sqrt (codeviation u u)) in *.
  set (sv := sqrt (codeviation v v)) in *.
  set (c := codeviation u v) in *.
  assert (0 < su * sv)%R as HD by nra.
  assert (c * c <= (su * sv) * (su * sv))%R as Hc by nra.
  assert (- (su * sv) <= c <= su * sv)%R as [Hlo Hhi] by nra.
  split.
  - apply (Rmult_le_reg_r (su * sv)); [done |].
    unfold Rdiv. rewrite Rmult_assoc, Rinv_l by lra. lra.
  - apply (Rmult_le_reg_r (su * sv)); [done |].
    unfold Rdiv. rewrite Rmult_assoc, Rinv_l by lra. lra.
Qed.

Lemma np_clip_inside x lo hi : (lo <= x <= hi)%R → np_clip x lo hi = x.
Proof.
  intros [Hlo Hhi]. unfold np_clip.
  rewrite Rmax_left by done. by rewrite Rmin_left.
Qed.

(** The correlation entry: [0] when the two vectors cannot be correlated,
    the textbook coefficient otherwise. *)
Lemma correlation_block_value u v :
  (length u ≠ length v ∨ codeviation u u = 0%R ∨ codeviation v v = 0%R →
   correlation_block u v = 0%R) ∧
  (length u = length v → codeviation u u ≠ 0%R → codeviation v v ≠ 0%R →
   correlation_block u v = pearson u v).
Proof.
  unfold correlation_block, np_corrcoef01.
  case_bool_decide as Hlen; [| split; [done | by intros ?]].
  case_bool_decide as Hshort.
  { split; [done |]. intros _ Hu _. by apply codeviation_short in Hshort. }
  assert (2 ≤ length u)%nat as H2 by lia.
  assert (2 ≤ length v)%nat as H2' by lia.
  case_bool_decide as Hu.
  { split; [done |]. intros _ Hu' _. by apply cov_zero_iff in Hu. }
  case_bool_decide as Hv.
  { split; [done |]. intros _ _ Hv'. by apply cov_zero_iff in Hv. }
  rewrite cov_zero_iff in Hu, Hv by done. simpl. split.
  - intros [? | [? | ?]]; done.
  - intros _ _ _. rewrite corrcoef_pearson by done.
    by apply np_clip_inside, pearson_bounds.
Qed.

(** * Symmetry in the two nodes *)

Lemma common_neighbors_sym G a b : common_neighbors G a b = common_neighbors G b a.
Proof.
  unfold common_neighbors. rewrite (andb_comm (has_node G a)).
  destruct (has_node G b && has_node G a); [| done].
  do 2 f_equal. apply set_eq. intros x. set_solver.
Qed.

Lemma jaccard_of_sym n1 n2 : jaccard_of n1 n2 = jaccard_of n2 n1.
Proof.
  unfold jaccard_of.
  by rewrite (comm_L (∪) n1 n2), (comm_L (∩) n1 n2).
Qed.

Lemma shared_ratio_of_sym n1 n2 : shared_ratio_of n1 n2 = shared_ratio_of n2 n1.
Proof. by rewrite <- !jaccard_of_shared_ratio_of, jaccard_of_sym. Qed.

Lemma path_length_step_sym a b G :
  graph_wf G → has_node G a = true → has_node G b = true →
  path_length_step a b G = path_length_step b a G.
Proof.
  intros Hwf Ha Hb. rewrite !path_length_step_wf by done.
  rewrite (has_edge_sym G b a Hwf).
  destruct (has_edge G a b) eqn:Hab.
  - cbv zeta. rewrite (delete_edge_comm b a).
    rewrite (shortest_path_length_sym (delete_edge a b G) b a); [done |].
    apply graph_wf_delete_edge; [done |]. by apply has_edge_true.
  - by rewrite (shortest_path_length_sym G b a).
Qed.

Lemma zip_with_Rmult_comm (u v : list R) :
  zip_with Rmult u v = zip_with Rmult v u.
Proof.
  revert v. induction u as [| x u IH]; intros [| y v]; simpl; try done.
  by rewrite IH, Rmult_comm.
Qed.

Lemma np_dot_sym u v : np_dot u v = np_dot v u.
Proof.
  unfold np_dot. rewrite zip_with_Rmult_comm.
  repeat case_bool_decide; congruence.
Qed.

Lemma cosine_similarity_sym u v : cosine_similarity u v = cosine_similarity v u.
Proof.
  unfold cosine_similarity. rewrite np_dot_sym.
  by rewrite (Rmult_comm (np_linalg_norm u)).
Qed.

Lemma codeviation_sym u v : codeviation u v = codeviation v u.
Proof. unfold codeviation. by rewrite zip_with_Rmult_comm. Qed.

Lemma np_corrcoef01_sym u v : np_corrcoef01 u v = np_corrcoef01 v u.
Proof.
  unfold np_corrcoef01.
  case_bool_decide as Hlen; [| by rewrite bool_decide_eq_false_2].
  rewrite (bool_decide_eq_true_2 (length v = length u)) by done.
  rewrite <- Hlen. case_bool_decide; [done |].
  assert (cov v u = cov u v) as ->.
  { rewrite !cov_codeviation, Hlen. by rewrite codeviation_sym. }
  do 2 case_bool_decide; try done.
  do 3 f_equal. unfold Rdiv. ring.
Qed.

Lemma matching_nonzero_sym u v : matching_nonzero u v = matching_nonzero v u.
Proof.
  unfold matching_nonzero. f_equal.
  revert v. induction u as [| x u IH]; intros [| y v]; simpl; try done.
  rewrite !filter_cons. simpl. specialize (IH v).
  destruct (decide (x ≠ 0%R ∧ y ≠ 0%R)), (decide (y ≠ 0%R ∧ x ≠ 0%R));
    simpl; try tauto; by rewrite IH.
Qed.

Lemma attribute_step_sym nf a b : attribute_step nf a b = attribute_step nf b a.
Proof.
  unfold attribute_step.
  destruct (nf !! a) as [u |], (nf !! b) as [v |]; try done.
  rewrite (cosine_similarity_sym v u).
  unfold correlation_block.
  by rewrite (np_corrcoef01_sym v u), (matching_nonzero_sym v u).
Qed.

(** Read over exact real numbers, the call gives for the pair [(b, a)]
    what it gives for [(a, b)], and leaves the same graph. *)
Lemma extract_features_sym_exact nf G a b :
  graph_wf G → extract_features nf a b G = extract_features nf b a G.
Proof.
  intros Hwf.
  destruct (has_node G a) eqn:Ha; [destruct (has_node G b) eqn:Hb |].
  - destruct (extract_features_present nf a b G Ha Hb)
      as (c1 & pl1 & G1 & Hc1 & Hp1 & _ & ->).
    destruct (extract_features_present nf b a G Hb Ha)
      as (c2 & pl2 & G2 & Hc2 & Hp2 & _ & ->).
    rewrite common_neighbors_sym, Hc1 in Hc2. injection Hc2 as <-.
    rewrite <- (path_length_step_sym a b G), Hp1 in Hp2 by done.
    injection Hp2 as <- <-.
    rewrite (attribute_step_sym nf b a).
    rewrite (jaccard_of_sym (adj G b)), (shared_ratio_of_sym (adj G1 b)).
    by rewrite (Z.mul_comm (degree G b)).
  - by rewrite !extract_features_absent by auto.
  - by rewrite !extract_features_absent by auto.
Qed.

(** * A run of the whole function

    Nodes 1, 2, 3 with the single edge 1-2, and the attribute vectors
    [1, 0], [1, 0], [0, 1]: for the pair (1, 3) there is no common
    neighbour, node 3 has degree 0 and cannot be reached, and the two
    attribute vectors are orthogonal and perfectly anti-correlated. *)

Lemma codeviation_10_10 : codeviation [1%R; 0%R] [1%R; 0%R] = (1 / 2)%R.
Proof. unfold codeviation, centered, mean. simpl. lra. Qed.

Lemma codeviation_01_01 : codeviation [0%R; 1%R] [0%R; 1%R] = (1 / 2)%R.
Proof. unfold codeviation, centered, mean. simpl. lra. Qed.

Lemma codeviation_10_01 : codeviation [1%R; 0%R] [0%R; 1%R] = (- (1 / 2))%R.
Proof. unfold codeviation, centered, mean. simpl. lra. Qed.

Lemma pearson_10_01 : pearson [1%R; 0%R] [0%R; 1%R] = (-1)%R.
Proof.
  unfold pearson.
  rewrite codeviation_10_10, codeviation_01_01, codeviation_10_01.
  rewrite sqrt_sqrt by lra. lra.
Qed.

Lemma correlation_block_10_01 :
  correlation_block [1%R; 0%R] [0%R; 1%R] = (-1)%R.
Proof.
  destruct (correlation_block_value [1%R; 0%R] [0%R; 1%R]) as [_ H].
  rewrite H, pearson_10_01; [done | done | |].
  - rewrite codeviation_10_10. lra.
  - rewrite codeviation_01_01. lra.
Qed.

(** A vector without variance: the correlation is replaced by [0]. *)
Lemma correlation_block_constant v :
  correlation_block [1%R; 1%R] v = 0%R.
Proof.
  destruct (correlation_block_value [1%R; 1%R] v) as [H _].
  apply H. right. left. unfold codeviation, centered, mean. simpl. lra.
Qed.

Lemma cosine_similarity_10_01 :
  cosine_similarity [1%R; 0%R] [0%R; 1%R] = Ok 0%R.
Proof.
  unfold cosine_similarity, np_dot, np_linalg_norm. simpl.
  destruct (Rlt_dec _ _); f_equal. unfold Rdiv.
  replace (1 * 0 + (0 * 1 + 0))%R with 0%R by lra. lra.
Qed.

Lemma matching_nonzero_10_01 : matching_nonzero [1%R; 0%R] [0%R; 1%R] = 0.
Proof.
  unfold matching_nonzero. simpl. rewrite !filter_cons, filter_nil. simpl.
  rewrite decide_False by (intros [_ H]; by apply H).
  rewrite decide_False by (intros [H _]; by apply H). done.
Qed.

Lemma extract_features_isolated :
  extract_features table3 1 3 isolated3 =
  (Ok [0; 0; 0; 0; 0; -1; 0; -1; 0; 0]%R, isolated3).
Proof.
  assert (has_node isolated3 1 = true) as H1 by by_evaluation.
  assert (has_node isolated3 3 = true) as H3 by by_evaluation.
  destruct (extract_features_present table3 1 3 isolated3 H1 H3)
    as (common & pl & G' & Hcn & Hpl & _ & ->).
  assert (common_neighbors isolated3 1 3 = Ok []) as Hc
    by by_evaluation.
  rewrite Hc in Hcn. injection Hcn as <-.
  rewrite path_length_step_no_edge in Hpl
    by by_evaluation.
  assert (shortest_path_length isolated3 1 3 = Raise NetworkXNoPath) as Hd
    by by_evaluation.
  rewrite Hd in Hpl. injection Hpl as <- <-.
  assert (attribute_step table3 1 3 = Ok [0; -1; 0]%R) as ->.
  { unfold attribute_step.
    assert (table3 !! 1 = Some [1%R; 0%R]) as -> by by_evaluation.
    assert (table3 !! 3 = Some [0%R; 1%R]) as -> by by_evaluation.
    by rewrite cosine_similarity_10_01, correlation_block_10_01,
      matching_nonzero_10_01. }
  assert (adj isolated3 1 ∩ adj isolated3 3 = ∅) as Hdisj
    by by_evaluation.
  rewrite jaccard_of_disjoint, shared_ratio_of_disjoint by done.
  assert (degree isolated3 1 * degree isolated3 3 = 0) as ->
    by by_evaluation.
  done.
Qed.

(** Vectors of different lengths in the table make the call raise: the
    dot product of the cosine similarity is outside every [try]. *)
Lemma extract_features_ragged_raises :
  ∃ G', extract_features (<[2 := [1%R]]> table3) 1 2 bridge
        = (Raise ValueError, G').
Proof.
  assert (has_node bridge 1 = true) as H1 by by_evaluation.
  assert (has_node bridge 2 = true) as H2 by by_evaluation.
  destruct (extract_features_present (<[2 := [1%R]]> table3) 1 2 bridge H1 H2)
    as (common & pl & G' & _ & _ & _ & ->).
  assert (attribute_step (<[2 := [1%R]]> table3) 1 2 = Raise ValueError) as ->.
  { unfold attribute_step.
    assert ((<[2 := [1%R]]> table3) !! 1 = Some [1%R; 0%R]) as ->
      by by_evaluation.
    assert ((<[2 := [1%R]]> table3) !! 2 = Some [1%R]) as ->
      by by_evaluation.
    done. }
  eauto.
Qed.

(** * Loading the graph *)

Lemma adj_add_node n G x : adj (add_node n G) x = adj G x.
Proof.
  unfold add_node. destruct (G !! n) eqn:Hn; [done |].
  rewrite adj_insert. case_decide; [| done]. subst. by rewrite adj_None.
Qed.

Lemma lookup_add_node_is_Some n G x :
  is_Some (add_node n G !! x) ↔ x = n ∨ is_Some (G !! x).
Proof.
  unfold add_node. destruct (G !! n) eqn:Hn.
  - split; [auto |]. intros [-> | ?]; [by rewrite Hn | done].
  - rewrite lookup_insert_is_Some. destruct (decide (n = x)); naive_solver.
Qed.

Lemma foldl_add_node_wf l G :
  graph_wf G → graph_wf (foldl (λ G n, add_node n G) G l).
Proof.
  revert G. induction l as [| n l IH]; intros G Hwf; simpl; [done |].
  by apply IH, graph_wf_add_node.
Qed.

Lemma foldl_add_node_adj l G x :
  adj (foldl (λ G n, add_node n G) G l) x = adj G x.
Proof.
  revert G. induction l as [| n l IH]; intros G; simpl; [done |].
  by rewrite IH, adj_add_node.
Qed.

Lemma foldl_add_node_is_Some l G x :
  is_Some (foldl (λ G n, add_node n G) G l !! x) ↔ x ∈ l ∨ is_Some (G !! x).
Proof.
  revert G. induction l as [| n l IH]; intros G; simpl.
  - set_solver.
  - rewrite IH, lookup_add_node_is_Some, elem_of_cons. naive_solver.
Qed.

Lemma add_nodes_wf nf G : graph_wf G → graph_wf (add_nodes nf G).
Proof. apply foldl_add_node_wf. Qed.

Lemma add_nodes_adj nf G x : adj (add_nodes nf G) x = adj G x.
Proof. apply foldl_add_node_adj. Qed.

Lemma add_nodes_is_Some nf G x :
  is_Some (add_nodes nf G !! x) ↔ is_Some (nf !! x) ∨ is_Some (G !! x).
Proof.
  unfold add_nodes. rewrite foldl_add_node_is_Some, elem_of_elements.
  by rewrite elem_of_dom.
Qed.

Lemma training_inv_init nf :
  training_inv nf {| train_graph := add_nodes nf ∅;
                     edges_positive := []; edges_negative := [] |}.
Proof.
  unfold training_inv. simpl. split_and!.
  - apply add_nodes_wf, graph_wf_empty.
  - intros a b. rewrite add_nodes_adj, adj_None by apply lookup_empty.
    set_solver.
  - intros n. rewrite add_nodes_is_Some, lookup_empty.
    split; [intros [? | []%is_Some_None]; by left |].
    intros [? | (m & [?%elem_of_nil | ?%elem_of_nil])]; by try left.
Qed.

Lemma training_inv_step nf st parts :
  training_inv nf st → training_inv nf (read_train_line st parts).
Proof.
  intros (Hwf & Hadj & Hnode). unfold read_train_line.
  destruct parts as [| src [| dst [| label [| ? ?]]]]; try done.
  case_bool_decide; [| done].
  unfold training_inv. simpl. split_and!.
  - by apply graph_wf_add_edge.
  - intros a b. rewrite adj_add_edge, !elem_of_app, !list_elem_of_singleton.
    rewrite !elem_of_union, Hadj.
    repeat case_decide; subst; set_solver.
  - intros n. rewrite lookup_add_edge_is_Some, Hnode.
    setoid_rewrite elem_of_app. setoid_rewrite list_elem_of_singleton.
    split.
    + intros [-> | [-> | [? | (m & Hm)]]].
      * right. exists dst. left. by right.
      * right. exists src. right. by right.
      * by left.
      * right. exists m. tauto.
    + intros [? | (m & [[? | [= -> ->]] | [? | [= -> ->]]])]; eauto 10.
Qed.

Lemma training_inv_foldl nf lines st :
  training_inv nf st → training_inv nf (foldl read_train_line st lines).
Proof.
  revert st. induction lines as [| parts lines IH]; intros st H; simpl;
    [done |]. by apply IH, training_inv_step.
Qed.

Lemma load_training_inv nf lines : training_inv nf (load_training nf lines).
Proof. apply training_inv_foldl, training_inv_init. Qed.

(** X1: the graph built by the loading cell has symmetric adjacency and
    only nodes as neighbours, whatever the attribute table and the
    training lines are. *)
Theorem load_training_graph_wf nf lines :
  graph_wf (train_graph (load_training nf lines)).
Proof. by destruct (load_training_inv nf lines) as (? & _ & _). Qed.

(** X2: the edges of the loaded graph are the pairs of [edges_positive],
    read in either direction; a line with a label other than 1 never
    makes an edge. *)
Theorem load_training_edges nf lines a b :
  has_edge (train_graph (load_training nf lines)) a b = true ↔
  (a, b) ∈ edges_positive (load_training nf lines) ∨
  (b, a) ∈ edges_positive (load_training nf lines).
Proof.
  destruct (load_training_inv nf lines) as (_ & Hadj & _).
  by rewrite has_edge_true, Hadj.
Qed.

(** X3: the nodes of the loaded graph are the ids of the attribute table
    and the endpoints of the positive pairs; an id that only occurs in
    negative pairs is not a node. *)
Theorem load_training_nodes nf lines n :
  has_node (train_graph (load_training nf lines)) n = true ↔
  is_Some (nf !! n) ∨
  ∃ m, (n, m) ∈ edges_positive (load_training nf lines) ∨
       (m, n) ∈ edges_positive (load_training nf lines).
Proof.
  destruct (load_training_inv nf lines) as (_ & _ & Hnode).
  by rewrite has_node_true, Hnode.
Qed.

Lemma foldl_read_train_line_lists lines st :
  edges_positive (foldl read_train_line st lines) =
  edges_positive st
  ++ omap (pair_of_line (λ label, bool_decide (label = 1))) lines ∧
  edges_negative (foldl read_train_line st lines) =
  edges_negative st
  ++ omap (pair_of_line (λ label, negb (bool_decide (label = 1)))) lines.
Proof.
  revert st. induction lines as [| parts lines IH]; intros st; simpl.
  - by rewrite !app_nil_r.
  - destruct (IH (read_train_line st parts)) as [-> ->].
    unfold read_train_line, pair_of_line.
    destruct parts as [| src [| dst [| label [| ? ?]]]]; try done.
    case_bool_decide; simpl; by rewrite <- ?app_assoc.
Qed.

(** X4: [edges_positive] holds, in file order, the pairs of the
    three-token lines with label 1 and [edges_negative] those of the
    three-token lines with any other label; lines with another number of
    tokens leave no trace. *)
Theorem load_training_lists nf lines :
  edges_positive (load_training nf lines) =
  omap (pair_of_line (λ label, bool_decide (label = 1))) lines ∧
  edges_negative (load_training nf lines) =
  omap (pair_of_line (λ label, negb (bool_decide (label = 1)))) lines.
Proof. apply (foldl_read_train_line_lists lines). Qed.

(** * The graph metrics on their own *)

Lemma neighbors_Ok_iff G n : (∃ s, neighbors G n = Ok s) ↔ has_node G n = true.
Proof.
  rewrite has_node_true. unfold neighbors.
  destruct (G !! n); split; intros [? ?]; eauto; discriminate.
Qed.

Lemma custom_jaccard_coefficient_absent G a b :
  has_node G a = false ∨ has_node G b = false →
  custom_jaccard_coefficient G a b = Raise NetworkXError.
Proof.
  rewrite !has_node_false. unfold custom_jaccard_coefficient, neighbors.
  intros [-> | ->]; [done |]. by destruct (G !! a).
Qed.

Lemma common_neighbors_absent G a b :
  has_node G a = false ∨ has_node G b = false →
  common_neighbors G a b = Raise NetworkXError.
Proof.
  unfold common_neighbors. intros [-> | ->]; [done |].
  by rewrite andb_false_r.
Qed.

(** X5: called on two nodes of the graph, the three graph metrics
    return a number; called with an id that is not a node, each of them
    raises [NetworkXError]. *)
Theorem graph_metrics_errors G a b :
  (has_node G a = true ∧ has_node G b = true →
   (∃ j, custom_jaccard_coefficient G a b = Ok j) ∧
   (∃ x, custom_adamic_adar_index G a b = Ok x) ∧
   (∃ y, custom_resource_allocation_index G a b = Ok y)) ∧
  (has_node G a = false ∨ has_node G b = false →
   custom_jaccard_coefficient G a b = Raise NetworkXError ∧
   custom_adamic_adar_index G a b = Raise NetworkXError ∧
   custom_resource_allocation_index G a b = Raise NetworkXError).
Proof.
  split.
  - intros [Ha Hb].
    pose proof (common_neighbors_node G a b Ha Hb) as Hcn.
    rewrite (custom_jaccard_coefficient_node G a b Ha Hb).
    rewrite (custom_adamic_adar_index_common _ _ _ _ Hcn).
    rewrite (custom_resource_allocation_index_common _ _ _ _ Hcn).
    split_and!; eauto.
  - intros H. split; [by apply custom_jaccard_coefficient_absent |].
    unfold custom_adamic_adar_index, custom_resource_allocation_index.
    by rewrite (common_neighbors_absent G a b H).
Qed.

Lemma Rdiv_unit_interval x y :
  (0 <= x <= y)%R → (0 < y)%R → (0 <= x / y <= 1)%R.
Proof.
  intros [Hx Hxy] Hy. pose proof (Rinv_0_lt_compat y Hy) as Hinv.
  assert (y * / y = 1)%R as Hone by (apply Rinv_r; lra).
  unfold Rdiv. split; nra.
Qed.

Lemma jaccard_of_range (n1 n2 : gset Z) :
  (0 <= jaccard_of n1 n2 <= 1)%R ∧
  (jaccard_of n1 n2 = 0%R ↔ n1 ∩ n2 = ∅) ∧
  (jaccard_of n1 n2 = 1%R ↔ n1 = n2 ∧ n1 ≠ ∅).
Proof.
  unfold jaccard_of.
  assert (size (n1 ∩ n2) ≤ size (n1 ∪ n2))%nat as Hle
    by (apply subseteq_size; set_solver).
  case_bool_decide as Hu.
  - assert (size (n1 ∪ n2) = 0%nat) as Hu' by lia.
    apply size_empty_iff, leibniz_equiv in Hu'.
    split; [lra |]. split.
    + split; [intros _; set_solver | done].
    + split; [lra |]. intros [_ Hne]. exfalso. apply Hne. set_solver.
  - set (i := size (n1 ∩ n2)) in *. set (u := size (n1 ∪ n2)) in *.
    assert (0 < IZR (Z.of_nat u))%R as Hupos by (apply IZR_lt; lia).
    assert (0 <= IZR (Z.of_nat i))%R as Hipos by (apply IZR_le; lia).
    assert (IZR (Z.of_nat i) <= IZR (Z.of_nat u))%R as Hiu
      by (apply IZR_le; lia).
    split; [| split].
    + apply Rdiv_unit_interval; [split |]; done.
    + split.
      * intros H0. apply Rmult_integral in H0 as [H0 | H0].
        -- apply eq_IZR in H0. assert (i = 0%nat) as Hi0 by lia.
           by apply size_empty_iff, leibniz_equiv in Hi0.
        -- exfalso. revert H0. apply Rinv_neq_0_compat. lra.
      * intros Hdisj. subst i. rewrite Hdisj, size_empty. simpl.
        unfold Rdiv. apply Rmult_0_l.
    + split.
      * intros H1.
        assert (IZR (Z.of_nat i) = IZR (Z.of_nat u)) as Heq.
        { apply (Rmult_eq_reg_r (/ IZR (Z.of_nat u)));
            [| apply Rinv_neq_0_compat; lra].
          unfold Rdiv in H1. rewrite H1, Rinv_r; lra. }
        apply eq_IZR in Heq. assert (u ≤ i)%nat as Hui by lia.
        assert (n1 ∩ n2 = n1 ∪ n2) as Hsets
          by (apply set_subseteq_size_eq; [set_solver | done]).
        split; [set_solver |].
        intros ->. apply Hu. subst u.
        assert (n2 = ∅) as -> by set_solver.
        by rewrite (left_id_L ∅ (∪)), size_empty.
      * intros [<- Hne]. subst i u.
        rewrite (idemp_L (∩)), (idemp_L (∪)). unfold Rdiv.
        apply Rinv_r. rewrite (idemp_L (∪)) in Hupos. lra.
Qed.

(** X6: the Jaccard coefficient of two nodes lies between 0 and 1; it is
    0 exactly when the two have no neighbour in common and 1 exactly when
    they have the same, non-empty, set of neighbours. *)
Theorem jaccard_range G a b :
  has_node G a = true → has_node G b = true →
  ∃ j, custom_jaccard_coefficient G a b = Ok j ∧
       (0 <= j <= 1)%R ∧
       (j = 0%R ↔ adj G a ∩ adj G b = ∅) ∧
       (j = 1%R ↔ adj G a = adj G b ∧ adj G a ≠ ∅).
Proof.
  intros Ha Hb. exists (jaccard_of (adj G a) (adj G b)).
  split; [by apply custom_jaccard_coefficient_node |].
  apply jaccard_of_range.
Qed.

Lemma jaccard_range_witness :
  ∃ j, custom_jaccard_coefficient triangle 1 3 = Ok j ∧
       (0 <= j <= 1)%R ∧
       (j = 0%R ↔ adj triangle 1 ∩ adj triangle 3 = ∅) ∧
       (j = 1%R ↔ adj triangle 1 = adj triangle 3 ∧ adj triangle 1 ≠ ∅).
Proof.
  apply (jaccard_range triangle 1 3).
  - vm_compute. reflexivity.
  - vm_compute. reflexivity.
Defined.

(** * Bounds on the two neighbour-weighted indices *)

Lemma Rsum_map_bounds {A} (f : A → R) (c : R) (l : list A) :
  (∀ x, x ∈ l → (0 <= f x <= c)%R) →
  (0 <= Rsum (map f l) <= c * INR (length l))%R.
Proof.
  induction l as [| x l IH]; intros Hall.
  - simpl. lra.
  - assert (0 <= f x <= c)%R as Hx by (apply Hall; left).
    destruct IH as [IH0 IH1]; [intros y Hy; apply Hall; by right |].
    change (length (x :: l)) with (S (length l)). rewrite S_INR.
    simpl. split; nra.
Qed.

Lemma ln_2_pos : (0 < ln 2)%R.
Proof. rewrite <- ln_1. apply ln_increasing; lra. Qed.

Lemma adamic_adar_term_bounds d :
  d > 1 → (0 <= 1 / ln (IZR d) <= 1 / ln 2)%R.
Proof.
  intros Hd. pose proof ln_2_pos as H2.
  assert (2 <= IZR d)%R as Hd2 by (apply (IZR_le 2); lia).
  assert (ln 2 <= ln (IZR d))%R as Hln.
  { destruct Hd2 as [Hlt | <-]; [| lra]. left. apply ln_increasing; lra. }
  unfold Rdiv. rewrite !Rmult_1_l. split.
  - left. apply Rinv_0_lt_compat. lra.
  - apply Rinv_le_contravar; lra.
Qed.

Lemma resource_allocation_term_bounds d : d > 0 → (0 <= 1 / IZR d <= 1)%R.
Proof.
  intros Hd. assert (1 <= IZR d)%R as Hd1 by (apply (IZR_le 1); lia).
  apply Rdiv_unit_interval; lra.
Qed.

Lemma filter_length_le {A} (P : A → Prop) `{∀ x, Decision (P x)} (l : list A) :
  (length (filter P l) ≤ length l)%nat.
Proof.
  induction l as [| x l IH]; [done |].
  rewrite filter_cons. destruct (decide (P x)); simpl; lia.
Qed.

(** X7: on two nodes of the graph both indices are non-negative, and the
    resource-allocation index is at most the number of common
    neighbours. *)
Theorem neighbour_indices_bounds G a b :
  has_node G a = true → has_node G b = true →
  ∃ common x y,
    common_neighbors G a b = Ok common ∧
    custom_adamic_adar_index G a b = Ok x ∧
    custom_resource_allocation_index G a b = Ok y ∧
    (0 <= x)%R ∧
    (0 <= y <= INR (length common))%R.
Proof.
  intros Ha Hb.
  pose proof (common_neighbors_node G a b Ha Hb) as Hcn.
  eexists _, _, _. split; [exact Hcn |].
  split; [by apply custom_adamic_adar_index_common |].
  split; [by apply custom_resource_allocation_index_common |].
  set (common := elements _).
  rewrite adamic_adar_sum_filter, resource_allocation_sum_filter.
  split.
  - destruct (Rsum_map_bounds (λ w, 1 / ln (IZR (degree G w)))%R (1 / ln 2)%R
                (filter (λ w, degree G w > 1) common)) as [H0 _]; [| done].
    intros w [Hw _]%list_elem_of_filter. by apply adamic_adar_term_bounds.
  - destruct (Rsum_map_bounds (λ w, 1 / IZR (degree G w))%R 1%R
                (filter (λ w, degree G w > 0) common)) as [H0 H1].
    { intros w [Hw _]%list_elem_of_filter.
      by apply resource_allocation_term_bounds. }
    split; [done |]. eapply Rle_trans; [exact H1 |].
    pose proof (filter_length_le (λ w, degree G w > 0) common) as Hlen.
    apply le_INR in Hlen. lra.
Qed.

Lemma neighbour_indices_bounds_witness :
  ∃ common x y,
    common_neighbors triangle 1 3 = Ok common ∧
    custom_adamic_adar_index triangle 1 3 = Ok x ∧
    custom_resource_allocation_index triangle 1 3 = Ok y ∧
    (0 <= x)%R ∧
    (0 <= y <= INR (length common))%R.
Proof.
  apply (neighbour_indices_bounds triangle 1 3).
  - vm_compute. reflexivity.
  - vm_compute. reflexivity.
Defined.

Lemma common_neighbor_degree_pos G a b common w :
  graph_wf G → common_neighbors G a b = Ok common → w ∈ common →
  degree G w > 0.
Proof.
  intros Hwf Hcn Hw.
  apply (elem_of_common_neighbors G a b common w Hcn) in Hw as (Hwa & _).
  apply (graph_wf_sym G a w Hwf) in Hwa.
  assert (size (adj G w) ≠ 0)%nat as Hsize.
  { rewrite size_empty_iff. intros He. apply leibniz_equiv in He. set_solver. }
  unfold degree. case_bool_decide; lia.
Qed.

(** X8: on a graph with symmetric adjacency the degree test of the
    resource-allocation index never leaves a common neighbour out, also
    when the two nodes are the same: the index is the sum of
    [1 / degree] over all common neighbours, each of degree at least 1. *)
Theorem resource_allocation_filter_idle G a b :
  graph_wf G → has_node G a = true → has_node G b = true →
  ∃ common,
    common_neighbors G a b = Ok common ∧
    (∀ w, w ∈ common → degree G w > 0) ∧
    custom_resource_allocation_index G a b =
    Ok (Rsum (map (λ w, 1 / IZR (degree G w))%R common)).
Proof.
  intros Hwf Ha Hb.
  pose proof (common_neighbors_node G a b Ha Hb) as Hcn.
  eexists. split; [exact Hcn |].
  assert (∀ w, w ∈ elements (adj G a ∩ adj G b ∖ {[a; b]}) → degree G w > 0)
    as Hdeg by (intros w; by apply (common_neighbor_degree_pos G a b)).
  split; [done |].
  rewrite (custom_resource_allocation_index_common _ _ _ _ Hcn).
  rewrite resource_allocation_sum_filter. by rewrite filter_all.
Qed.

Lemma resource_allocation_filter_idle_witness :
  ∃ common,
    common_neighbors bridge 1 1 = Ok common ∧
    (∀ w, w ∈ common → degree bridge w > 0) ∧
    custom_resource_allocation_index bridge 1 1 =
    Ok (Rsum (map (λ w, 1 / IZR (degree bridge w))%R common)).
Proof.
  apply (resource_allocation_filter_idle bridge 1 1).
  - apply (bool_decide_unpack _). vm_compute. exact I.
  - vm_compute. reflexivity.
  - vm_compute. reflexivity.
Defined.

(** * Cosine similarity *)

Lemma Rsum_squares_zero (u : list R) :
  Forall (λ x, x = 0%R) u → Rsum (zip_with Rmult u u) = 0%R.
Proof.
  induction 1 as [| x u -> _ IH]; simpl; [done |]. rewrite IH. lra.
Qed.

(** X10: when one of the two vectors is all zeros the cosine similarity
    is 0 instead of a division by zero. *)
Theorem cosine_similarity_zero_vector u v :
  length u = length v →
  Forall (λ x, x = 0%R) u ∨ Forall (λ x, x = 0%R) v →
  cosine_similarity u v = Ok 0%R.
Proof.
  intros Hlen Hzero. unfold cosine_similarity, np_dot, np_linalg_norm.
  rewrite bool_decide_eq_true_2 by done.
  destruct (Rlt_dec _ _) as [Hpos | _]; [| done].
  exfalso. destruct Hzero as [H | H]; apply Rsum_squares_zero in H;
    rewrite H, sqrt_0 in Hpos; lra.
Qed.

Lemma cosine_similarity_zero_vector_witness :
  cosine_similarity [0%R; 0%R] [1%R; 0%R] = Ok 0%R.
Proof.
  apply (cosine_similarity_zero_vector [0%R; 0%R] [1%R; 0%R]).
  - reflexivity.
  - left. repeat constructor.
Defined.

(** * The correlation entry *)

Lemma correlation_block_bounds u v : (-1 <= correlation_block u v <= 1)%R.
Proof.
  destruct (correlation_block_value u v) as [Hzero Hval].
  destruct (decide (length u = length v)) as [Hlen | Hlen];
    [| rewrite Hzero by auto; lra].
  destruct (decide (codeviation u u = 0%R)) as [Hu | Hu];
    [rewrite Hzero by auto; lra |].
  destruct (decide (codeviation v v = 0%R)) as [Hv | Hv];
    [rewrite Hzero by auto; lra |].
  rewrite Hval by done. by apply pearson_bounds.
Qed.

(** * The count of shared non-zero entries *)

Lemma filter_zip_length_le {A B} (P : A * B → Prop) `{∀ x, Decision (P x)}
    (u : list A) (v : list B) :
  (length (filter P (zip u v)) ≤ length u ∧
   length (filter P (zip u v)) ≤ length v)%nat.
Proof.
  pose proof (filter_length_le P (zip u v)) as H1.
  rewrite length_zip_with in H1. lia.
Qed.

Lemma filter_zip_zero (u v : list R) :
  Forall (λ x, x = 0%R) u ∨ Forall (λ x, x = 0%R) v →
  filter (λ p : R * R, p.1 ≠ 0%R ∧ p.2 ≠ 0%R) (zip u v) = [].
Proof.
  revert v. induction u as [| x u IH]; intros [| y v] Hzero; try done.
  simpl. rewrite filter_cons.
  destruct Hzero as [Hz | Hz]; inversion Hz; subst.
  - rewrite decide_False by (simpl; tauto). apply IH. by left.
  - rewrite decide_False by (simpl; tauto). apply IH. by right.
Qed.

(** X14: for two vectors of one length, the count of positions where
    both are non-zero is between 0 and that length, and it is 0 when one
    of the vectors is all zeros. *)
Theorem matching_nonzero_bounds u v :
  length u = length v →
  0 ≤ matching_nonzero u v ∧
  matching_nonzero u v ≤ Z.of_nat (length u) ∧
  (Forall (λ x, x = 0%R) u ∨ Forall (λ x, x = 0%R) v →
   matching_nonzero u v = 0).
Proof.
  intros Hlen. unfold matching_nonzero.
  destruct (filter_zip_length_le (λ p : R * R, p.1 ≠ 0%R ∧ p.2 ≠ 0%R) u v)
    as [Hu Hv].
  split_and!; try lia.
  intros Hzero.
  assert (filter (λ p : R * R, p.1 ≠ 0%R ∧ p.2 ≠ 0%R) (zip u v) = []) as ->;
    [| done].
  by apply filter_zip_zero.
Qed.

Lemma matching_nonzero_bounds_witness :
  0 ≤ matching_nonzero [1%R; 0%R] [0%R; 1%R] ∧
  matching_nonzero [1%R; 0%R] [0%R; 1%R] ≤ Z.of_nat (length [1%R; 0%R]) ∧
  (Forall (λ x, x = 0%R) [1%R; 0%R] ∨ Forall (λ x, x = 0%R) [0%R; 1%R] →
   matching_nonzero [1%R; 0%R] [0%R; 1%R] = 0).
Proof.
  apply (matching_nonzero_bounds [1%R; 0%R] [0%R; 1%R]).
  reflexivity.
Defined.

(** * What a call does to the graph *)

Lemma extract_features_nodes nf a b G x :
  has_node (extract_features nf a b G).2 x = has_node G x.
Proof.
  destruct (has_node G a) eqn:Ha; [destruct (has_node G b) eqn:Hb |].
  - destruct (extract_features_present nf a b G Ha Hb)
      as (common & pl & G' & _ & _ & Hn & ->).
    by destruct (attribute_step nf a b).
  - by rewrite extract_features_absent by auto.
  - by rewrite extract_features_absent by auto.
Qed.

Lemma extract_features_graph_cases nf a b G :
  graph_wf G →
  (extract_features nf a b G).2 = G ∨
  (has_edge G a b = true ∧
   (extract_features nf a b G).2 = delete_edge a b G ∧
   ∃ e, shortest_path_length (delete_edge a b G) a b = Raise e).
Proof.
  intros Hwf.
  destruct (has_node G a) eqn:Ha; [destruct (has_node G b) eqn:Hb |].
  - rewrite extract_features_final_graph by done.
    destruct (has_edge G a b); [| by left].
    destruct (shortest_path_length _ a b) as [d | e]; [by left |].
    right. eauto.
  - left. by rewrite extract_features_absent by auto.
  - left. by rewrite extract_features_absent by auto.
Qed.

Lemma extract_features_wf nf a b G :
  graph_wf G → graph_wf (extract_features nf a b G).2.
Proof.
  intros Hwf.
  destruct (extract_features_graph_cases nf a b G Hwf)
    as [-> | (Hab & -> & _)]; [done |].
  apply graph_wf_delete_edge; [done |]. by apply has_edge_true.
Qed.

Lemma extract_features_edges nf a b G u v :
  graph_wf G →
  (has_edge (extract_features nf a b G).2 u v = true →
   has_edge G u v = true) ∧
  (has_edge G u v = true → ¬ (u = a ∧ v = b) → ¬ (u = b ∧ v = a) →
   has_edge (extract_features nf a b G).2 u v = true).
Proof.
  intros Hwf.
  destruct (extract_features_graph_cases nf a b G Hwf)
    as [-> | (Hab & -> & _)]; [done |].
  rewrite has_edge_delete_edge. tauto.
Qed.

(** X15: a call never adds or removes a node, whatever the graph, the
    table and the pair are, and also when it raises. *)
Theorem extract_features_keeps_nodes nf a b G x :
  has_node (extract_features nf a b G).2 x = has_node G x.
Proof. apply extract_features_nodes. Qed.

(** X16: a call leaves a graph with symmetric adjacency, also when it
    returns without the edge it took out. *)
Theorem extract_features_keeps_wf nf a b G :
  graph_wf G → graph_wf (extract_features nf a b G).2.
Proof. apply extract_features_wf. Qed.

Lemma extract_features_keeps_wf_witness :
  graph_wf (extract_features table3 1 2 bridge).2.
Proof.
  apply (extract_features_keeps_wf table3 1 2 bridge).
  apply (bool_decide_unpack _). vm_compute. exact I.
Defined.

(** X17: a call never adds an edge, and every edge other than the one
    between the two queried nodes is still there afterwards. *)
Theorem extract_features_other_edges nf a b G u v :
  graph_wf G →
  (has_edge (extract_features nf a b G).2 u v = true →
   has_edge G u v = true) ∧
  (has_edge G u v = true → ¬ (u = a ∧ v = b) → ¬ (u = b ∧ v = a) →
   has_edge (extract_features nf a b G).2 u v = true).
Proof. apply extract_features_edges. Qed.

Lemma extract_features_other_edges_witness :
  (has_edge (extract_features table3 1 2 path3).2 2 3 = true →
   has_edge path3 2 3 = true) ∧
  (has_edge path3 2 3 = true → ¬ (2 = 1 ∧ 3 = 2) → ¬ (2 = 2 ∧ 3 = 1) →
   has_edge (extract_features table3 1 2 path3).2 2 3 = true).
Proof.
  apply (extract_features_other_edges table3 1 2 path3 2 3).
  apply (bool_decide_unpack _). vm_compute. exact I.
Defined.

Lemma shortest_path_length_walk G a b n :
  graph_wf G → has_node G a = true → has_node G b = true →
  walk G a n b → ∃ d, shortest_path_length G a b = Ok d.
Proof.
  intros Hwf Ha Hb Hw. rewrite shortest_path_length_node by done.
  pose proof (bfs_distance G Hwf a b) as Hd.
  destruct (bfs _ _ _ _ _ _); [eauto |].
  exfalso. apply (Hd ltac:(by apply has_node_true) n Hw).
Qed.

Lemma shortest_path_length_no_walk G a b e :
  graph_wf G → has_node G a = true →
  shortest_path_length G a b = Raise e → ∀ n, ¬ walk G a n b.
Proof.
  intros Hwf Ha He. unfold shortest_path_length in He. rewrite Ha in He.
  destruct (has_node G b) eqn:Hb; simpl in He.
  - pose proof (bfs_distance G Hwf a b ltac:(by apply has_node_true)) as Hd.
    by destruct (bfs _ _ _ _ _ _).
  - intros n Hw. apply has_node_false in Hb.
    inversion Hw as [| n' v w Hw' Hvb]; subst.
    + apply has_node_true in Ha. rewrite Hb in Ha. by destruct Ha.
    + destruct (graph_wf_adj G v b Hwf Hvb) as [Hs _].
      rewrite Hb in Hs. by destruct Hs.
Qed.

(** X18: on a graph with symmetric adjacency a call gives the graph back
    exactly as it was if and only if the two nodes are not joined by an
    edge or stay connected when that edge is taken out. *)
Theorem extract_features_unchanged_iff nf a b G :
  graph_wf G →
  (extract_features nf a b G).2 = G ↔
  has_edge G a b = false ∨ ∃ n, walk (delete_edge a b G) a n b.
Proof.
  intros Hwf. destruct (has_edge G a b) eqn:Hab.
  - assert (b ∈ adj G a) as Hab' by (by apply has_edge_true).
    assert (has_node G a = true) as Ha
      by (apply has_node_true; by eapply elem_of_adj_node).
    assert (has_node G b = true) as Hb
      by (apply has_node_true; by destruct (graph_wf_adj G a b Hwf Hab')).
    rewrite extract_features_final_graph, Hab by done.
    pose proof (graph_wf_delete_edge a b G Hwf Hab') as Hwf1.
    destruct (shortest_path_length (delete_edge a b G) a b) as [d | e] eqn:Hd.
    + split; [| done]. intros _. right.
      rewrite shortest_path_length_node in Hd
        by (by rewrite has_node_delete_edge).
      pose proof (bfs_distance (delete_edge a b G) Hwf1 a b) as Hdist.
      rewrite lookup_delete_edge_is_Some in Hdist
        by (by apply has_node_true).
      specialize (Hdist ltac:(by apply has_node_true)).
      destruct (bfs _ _ _ _ _ _) as [k |]; [| discriminate].
      exists k. by destruct Hdist.
    + split.
      * intros Heq. exfalso.
        assert (has_edge (delete_edge a b G) a b = true) as H
          by (by rewrite Heq).
        apply has_edge_delete_edge in H. tauto.
      * intros [? | [n Hw]]; [done |]. exfalso.
        assert (has_node (delete_edge a b G) a = true) as Ha1
          by (by rewrite has_node_delete_edge).
        exact (shortest_path_length_no_walk (delete_edge a b G) a b e
                 Hwf1 Ha1 Hd n Hw).
  - split; [auto |]. intros _.
    destruct (extract_features_graph_cases nf a b G Hwf)
      as [-> | (Hab' & _)]; [done | congruence].
Qed.

Lemma extract_features_unchanged_iff_witness :
  (extract_features table3 1 3 triangle).2 = triangle ↔
  has_edge triangle 1 3 = false ∨ ∃ n, walk (delete_edge 1 3 triangle) 1 n 3.
Proof.
  apply (extract_features_unchanged_iff table3 1 3 triangle).
  apply (bool_decide_unpack _). vm_compute. exact I.
Defined.

(** X19: on a graph with symmetric adjacency, what a second call on the
    same pair leaves is what the first call left: an edge lost by the
    first call is not put back, and nothing more is lost. *)
Theorem extract_features_twice nf a b G :
  graph_wf G →
  (extract_features nf a b (extract_features nf a b G).2).2 =
  (extract_features nf a b G).2.
Proof.
  intros Hwf.
  destruct (extract_features_graph_cases nf a b G Hwf)
    as [Heq | (Hab & Heq & _)].
  - by rewrite !Heq.
  - rewrite Heq.
    assert (graph_wf (delete_edge a b G)) as Hwf1
      by (apply graph_wf_delete_edge; [done | by apply has_edge_true]).
    destruct (extract_features_graph_cases nf a b (delete_edge a b G) Hwf1)
      as [-> | (Hab' & _)]; [done |].
    apply has_edge_delete_edge in Hab'. tauto.
Qed.

Lemma extract_features_twice_witness :
  (extract_features table3 1 2 (extract_features table3 1 2 bridge).2).2 =
  (extract_features table3 1 2 bridge).2.
Proof.
  apply (extract_features_twice table3 1 2 bridge).
  apply (bool_decide_unpack _). vm_compute. exact I.
Defined.

(** * The values the shortest-path component can take *)

Lemma queried_graph_wf G a b :
  graph_wf G → graph_wf (if has_edge G a b then delete_edge a b G else G).
Proof.
  intros Hwf. destruct (has_edge G a b) eqn:Hab; [| done].
  apply graph_wf_delete_edge; [done |]. by apply has_edge_true.
Qed.

Lemma queried_graph_nodes G a b x :
  has_node G a = true → has_node G b = true →
  has_node (if has_edge G a b then delete_edge a b G else G) x = has_node G x.
Proof.
  intros Ha Hb. destruct (has_edge G a b); [| done].
  by apply has_node_delete_edge.
Qed.

Lemma queried_graph_no_edge G a b :
  b ∉ adj (if has_edge G a b then delete_edge a b G else G) a.
Proof.
  destruct (has_edge G a b) eqn:Hab.
  - rewrite adj_delete_edge, decide_True by done. set_solver.
  - intros H%has_edge_true. congruence.
Qed.

Lemma queried_graph_common_walk G a b w :
  graph_wf G → w ∈ adj G a → w ∈ adj G b → w ≠ a → w ≠ b →
  walk (if has_edge G a b then delete_edge a b G else G) a 2 b.
Proof.
  intros Hwf Hwa Hwb Hna Hnb.
  assert (b ∈ adj G w) as Hbw by (by apply graph_wf_sym).
  eapply walk_snoc; [eapply walk_snoc; [apply walk_nil |] |];
    instantiate (1 := w) || idtac.
  - destruct (has_edge G a b); [| done].
    rewrite adj_delete_edge, decide_True by done. set_solver.
  - destruct (has_edge G a b); [| done].
    rewrite adj_delete_edge, !decide_False by done. done.
Qed.

Lemma walk_zero G s t : walk G s 0 t → t = s.
Proof. intros H. by inversion H. Qed.

Lemma walk_one G s t : walk G s 1 t → t ∈ adj G s.
Proof.
  intros H. inversion H as [| n v w Hw0 Hvt]; subst.
  apply walk_zero in Hw0. by subst.
Qed.

Lemma path_value_shape G a b :
  graph_wf G → has_node G a = true → has_node G b = true →
  ∃ r, distance_is (if has_edge G a b then delete_edge a b G else G) a b r ∧
       or_sentinel (shortest_path_length
                      (if has_edge G a b then delete_edge a b G else G) a b)
       = match r with Some d => Z.of_nat d | None => -1 end ∧
       r ≠ Some 1%nat ∧ (r = Some 0%nat ↔ a = b).
Proof.
  intros Hwf Ha Hb.
  destruct (shortest_path_length_distance
              (if has_edge G a b then delete_edge a b G else G) a b)
    as (r & Hr & Heq).
  { by apply queried_graph_wf. }
  { by rewrite queried_graph_nodes. }
  { by rewrite queried_graph_nodes. }
  exists r. split_and!; try done.
  - intros ->. destruct Hr as [Hw%walk_one _].
    by apply (queried_graph_no_edge G a b).
  - split.
    + intros ->. destruct Hr as [Hw%walk_zero _]. done.
    + intros <-. destruct r as [d |]; simpl in Hr.
      * destruct Hr as [_ Hmin]. specialize (Hmin 0%nat (walk_nil _ _)).
        f_equal. lia.
      * exfalso. apply (Hr 0%nat). constructor.
Qed.

Lemma extract_features_path_component nf G a b :
  graph_wf G → equal_lengths nf →
  has_node G a = true → has_node G b = true →
  ∃ common x y z G',
    common_neighbors G a b = Ok common ∧
    extract_features nf a b G =
    (Ok [IZR (Z.of_nat (length common)); jaccard_of (adj G a) (adj G b);
         IZR (degree G a * degree G b); adamic_adar_sum G common;
         resource_allocation_sum G common;
         IZR (or_sentinel
                (shortest_path_length
                   (if has_edge G a b then delete_edge a b G else G) a b));
         x; y; z; shared_ratio_of (adj G' a) (adj G' b)], G').
Proof.
  intros Hwf Hlen Ha Hb.
  destruct (extract_features_present nf a b G Ha Hb)
    as (common & pl & G' & Hcn & Hpl & _ & ->).
  destruct (path_length_step_value a b G Hwf Ha Hb) as [G'' Hval].
  rewrite Hval in Hpl. injection Hpl as <- <-.
  destruct (attribute_step_total nf a b) as (x & y & z & ->).
  { intros u v. by apply equal_lengths_lookup. }
  by eexists common, x, y, z, _.
Qed.

(** X20: on two nodes of a graph with symmetric adjacency the
    shortest-path component is an integer that is never 1: it is [-1], or
    0, or at least 2, and it is 0 exactly when the two nodes are the
    same. *)
Theorem shortest_path_component_never_one nf G a b :
  graph_wf G → equal_lengths nf →
  has_node G a = true → has_node G b = true →
  ∃ features G' z,
    extract_features nf a b G = (Ok features, G') ∧
    features !! 5%nat = Some (IZR z) ∧
    (z = -1 ∨ z = 0 ∨ 2 ≤ z) ∧
    (z = 0 ↔ a = b).
Proof.
  intros Hwf Hlen Ha Hb.
  destruct (extract_features_path_component nf G a b Hwf Hlen Ha Hb)
    as (common & x & y & z & G' & _ & ->).
  destruct (path_value_shape G a b Hwf Ha Hb) as (r & _ & -> & Hne & Hzero).
  eexists _, _, _. split; [done |]. split; [done |].
  destruct r as [[| [| d]] |]; try done.
  - split; [auto |]. split; [intros _; by apply Hzero | done].
  - split; [lia |]. split; [lia |]. intros Hab. apply Hzero in Hab.
    discriminate.
  - split; [auto |]. split; [lia |]. intros Hab. apply Hzero in Hab.
    discriminate.
Qed.

Lemma shortest_path_component_never_one_witness :
  ∃ features G' z,
    extract_features table3 1 3 triangle = (Ok features, G') ∧
    features !! 5%nat = Some (IZR z) ∧
    (z = -1 ∨ z = 0 ∨ 2 ≤ z) ∧
    (z = 0 ↔ 1 = 3).
Proof.
  apply (shortest_path_component_never_one table3 triangle 1 3).
  - apply (bool_decide_unpack _). vm_compute. exact I.
  - apply (bool_decide_unpack _). vm_compute. exact I.
  - vm_compute. reflexivity.
  - vm_compute. reflexivity.
Defined.

(** X21: for two different nodes of a graph with symmetric adjacency, a
    common neighbour makes the shortest-path component exactly 2; so when
    that component is the sentinel [-1] the number of common neighbours
    and the two neighbour-weighted indices are 0. *)
Theorem common_neighbour_gives_distance_two nf G a b :
  graph_wf G → equal_lengths nf →
  has_node G a = true → has_node G b = true → a ≠ b →
  ∃ features G',
    extract_features nf a b G = (Ok features, G') ∧
    (features !! 0%nat ≠ Some 0%R → features !! 5%nat = Some 2%R) ∧
    (features !! 5%nat = Some (-1)%R →
     features !! 0%nat = Some 0%R ∧ features !! 3%nat = Some 0%R ∧
     features !! 4%nat = Some 0%R).
Proof.
  intros Hwf Hlen Ha Hb Hne.
  destruct (extract_features_path_component nf G a b Hwf Hlen Ha Hb)
    as (common & x & y & z & G' & Hcn & ->).
  eexists _, _. split; [done |]. simpl.
  destruct common as [| w common].
  - split; [done |]. done.
  - assert (w ∈ w :: common) as Hw by left.
    apply (elem_of_common_neighbors G a b _ w Hcn) in Hw
      as (Hwa & Hwb & Hna & Hnb).
    pose proof (queried_graph_common_walk G a b w Hwf Hwa Hwb Hna Hnb) as Hw2.
    destruct (path_value_shape G a b Hwf Ha Hb)
      as (r & Hr & -> & Hr1 & Hr0).
    assert (r = Some 2%nat) as ->.
    { destruct r as [d |]; simpl in Hr.
      - destruct Hr as [_ Hmin]. specialize (Hmin 2%nat Hw2).
        destruct d as [| [| [| d]]]; try done; try lia.
        exfalso. by apply Hne, Hr0.
      - exfalso. by apply (Hr 2%nat). }
    split; [done |]. intros [= H%eq_IZR]. lia.
Qed.

Lemma common_neighbour_gives_distance_two_witness :
  ∃ features G',
    extract_features table3 1 3 triangle = (Ok features, G') ∧
    (features !! 0%nat ≠ Some 0%R → features !! 5%nat = Some 2%R) ∧
    (features !! 5%nat = Some (-1)%R →
     features !! 0%nat = Some 0%R ∧ features !! 3%nat = Some 0%R ∧
     features !! 4%nat = Some 0%R).
Proof.
  apply (common_neighbour_gives_distance_two table3 triangle 1 3).
  - apply (bool_decide_unpack _). vm_compute. exact I.
  - apply (bool_decide_unpack _). vm_compute. exact I.
  - vm_compute. reflexivity.
  - vm_compute. reflexivity.
  - lia.
Defined.

(** * The loops over pairs *)

Lemma extract_features_returns nf a b G :
  equal_lengths nf →
  ∃ features,
    extract_features nf a b G = (Ok features, (extract_features nf a b G).2) ∧
    length features = 10%nat ∧
    (has_node G a = false ∨ has_node G b = false →
     features = replicate 10 0%R).
Proof.
  intros Hlen.
  destruct (has_node G a) eqn:Ha; [destruct (has_node G b) eqn:Hb |].
  - destruct (extract_features_present nf a b G Ha Hb)
      as (common & pl & G' & _ & _ & _ & ->).
    destruct (attribute_step_total nf a b) as (x & y & z & ->).
    { intros u v. by apply equal_lengths_lookup. }
    eexists. split; [done |]. split; [done |]. intros [? | ?]; discriminate.
  - rewrite extract_features_absent by auto. eexists. by split.
  - rewrite extract_features_absent by auto. eexists. by split.
Qed.

Lemma extract_rows_cons nf a b pairs rows G :
  extract_rows nf ((a, b) :: pairs) rows G =
  match extract_features nf a b G with
  | (Ok features, G') => extract_rows nf pairs (rows ++ [features]) G'
  | (Raise e, G') => (Raise e, G')
  end.
Proof. done. Qed.

Lemma extract_labelled_cons nf label a b pairs X y G :
  extract_labelled nf label ((a, b) :: pairs) X y G =
  match extract_features nf a b G with
  | (Ok features, G') =>
      extract_labelled nf label pairs (X ++ [features]) (y ++ [label]) G'
  | (Raise e, G') => (Raise e, G')
  end.
Proof. done. Qed.

Lemma extract_rows_spec nf pairs rows G :
  equal_lengths nf →
  ∃ new G',
    extract_rows nf pairs rows G = (Ok (rows ++ new), G') ∧
    length new = length pairs ∧
    Forall (λ row, length row = 10%nat) new ∧
    (∀ i a b, pairs !! i = Some (a, b) →
              has_node G a = false ∨ has_node G b = false →
              new !! i = Some (replicate 10 0%R)) ∧
    (∀ x, has_node G' x = has_node G x) ∧
    (graph_wf G →
     graph_wf G' ∧ ∀ u v, has_edge G' u v = true → has_edge G u v = true).
Proof.
  intros Hlen. revert rows G.
  induction pairs as [| [a b] pairs IH]; intros rows G.
  - exists [], G. rewrite app_nil_r. split_and!; try done.
  - rewrite extract_rows_cons.
    destruct (extract_features_returns nf a b G Hlen)
      as (features & -> & Hten & Hzero).
    pose proof (extract_features_nodes nf a b G) as Hn1.
    set (G1 := (extract_features nf a b G).2) in *.
    destruct (IH (rows ++ [features]) G1)
      as (new & G' & -> & Hlen' & Hall & Habs & Hn & Hwf).
    exists (features :: new), G'. rewrite <- app_assoc. simpl.
    split_and!; try done.
    + by rewrite Hlen'.
    + by constructor.
    + intros [| i] a' b' Hi Ha'; simpl in *.
      * injection Hi as -> ->. f_equal. by apply Hzero.
      * apply (Habs i a' b' Hi). by rewrite !Hn1.
    + intros x. by rewrite Hn, Hn1.
    + intros HwfG.
      destruct (Hwf (extract_features_wf nf a b G HwfG)) as [Hwf' Hsub].
      split; [done |]. intros u v Huv.
      by apply (extract_features_edges nf a b G u v HwfG), Hsub.
Qed.

(** X22: with attribute vectors of one length, the loop over a list of
    pairs returns one row of ten components per pair, in order; the row
    of a pair with an id that is not a node of the graph the loop started
    from is ten zeros wherever it stands in the list; the loop keeps the
    node set, and on a graph with symmetric adjacency it keeps the
    symmetry and adds no edge. *)
Theorem extract_rows_batch nf pairs G :
  equal_lengths nf →
  ∃ rows G',
    extract_rows nf pairs [] G = (Ok rows, G') ∧
    length rows = length pairs ∧
    Forall (λ row, length row = 10%nat) rows ∧
    (∀ i a b, pairs !! i = Some (a, b) →
              has_node G a = false ∨ has_node G b = false →
              rows !! i = Some (replicate 10 0%R)) ∧
    (∀ x, has_node G' x = has_node G x) ∧
    (graph_wf G →
     graph_wf G' ∧ ∀ u v, has_edge G' u v = true → has_edge G u v = true).
Proof. intros Hlen. apply (extract_rows_spec nf pairs [] G Hlen). Qed.

Lemma extract_rows_batch_witness :
  ∃ rows G',
    extract_rows table3 pairs3 [] triangle = (Ok rows, G') ∧
    length rows = length pairs3 ∧
    Forall (λ row, length row = 10%nat) rows ∧
    (∀ i a b, pairs3 !! i = Some (a, b) →
              has_node triangle a = false ∨ has_node triangle b = false →
              rows !! i = Some (replicate 10 0%R)) ∧
    (∀ x, has_node G' x = has_node triangle x) ∧
    (graph_wf triangle →
     graph_wf G' ∧
     ∀ u v, has_edge G' u v = true → has_edge triangle u v = true).
Proof.
  apply (extract_rows_batch table3 pairs3 triangle).
  apply (bool_decide_unpack _). vm_compute. exact I.
Defined.

Lemma extract_labelled_spec nf label pairs X y G :
  equal_lengths nf →
  ∃ new G',
    extract_labelled nf label pairs X y G =
    (Ok (X ++ new, y ++ replicate (length pairs) label), G') ∧
    length new = length pairs ∧
    Forall (λ row, length row = 10%nat) new ∧
    (∀ x, has_node G' x = has_node G x) ∧
    (graph_wf G →
     graph_wf G' ∧ ∀ u v, has_edge G' u v = true → has_edge G u v = true).
Proof.
  intros Hlen. revert X y G.
  induction pairs as [| [a b] pairs IH]; intros X y G.
  - exists [], G. by rewrite !app_nil_r.
  - rewrite extract_labelled_cons.
    destruct (extract_features_returns nf a b G Hlen)
      as (features & -> & Hten & _).
    pose proof (extract_features_nodes nf a b G) as Hn1.
    destruct (IH (X ++ [features]) (y ++ [label])
                (extract_features nf a b G).2)
      as (new & G' & -> & Hlen' & Hall & Hn & Hwf).
    exists (features :: new), G'. rewrite <- !app_assoc. simpl.
    split_and!; [done | by rewrite Hlen' | by constructor | |].
    + intros x. by rewrite Hn, Hn1.
    + intros HwfG.
      destruct (Hwf (extract_features_wf nf a b G HwfG)) as [Hwf' Hsub].
      split; [done |]. intros u v Huv.
      by apply (extract_features_edges nf a b G u v HwfG), Hsub.
Qed.

(** X23: with attribute vectors of one length, the preparation of the
    training data returns as many rows as labels, each row of ten
    components: with [m] the smaller of the two list lengths, [m] rows
    labelled 1 followed by [m] rows labelled 0. It keeps the node set, and
    on a graph with symmetric adjacency it keeps the symmetry and adds
    no edge. *)
Theorem prepare_training_balanced nf pos neg G :
  equal_lengths nf →
  ∃ X y G',
    prepare_training nf pos neg G = (Ok (X, y), G') ∧
    y = replicate (Nat.min (length pos) (length neg)) 1
        ++ replicate (Nat.min (length pos) (length neg)) 0 ∧
    length X = length y ∧
    Forall (λ row, length row = 10%nat) X ∧
    (∀ x, has_node G' x = has_node G x) ∧
    (graph_wf G →
     graph_wf G' ∧ ∀ u v, has_edge G' u v = true → has_edge G u v = true).
Proof.
  intros Hlen. unfold prepare_training. unfold_M.
  set (m := Nat.min (length pos) (length neg)).
  destruct (extract_labelled_spec nf 1 (take m pos) [] [] G Hlen)
    as (new1 & G1 & -> & Hl1 & Hall1 & Hn1 & Hwf1).
  simpl.
  destruct (extract_labelled_spec nf 0 (take m neg) new1
              (replicate (length (take m pos)) 1) G1 Hlen)
    as (new2 & G2 & -> & Hl2 & Hall2 & Hn2 & Hwf2).
  assert (length (take m pos) = m) as Hp by (rewrite length_take; lia).
  assert (length (take m neg) = m) as Hq by (rewrite length_take; lia).
  rewrite Hp, Hq in *.
  eexists _, _, _. split; [done |]. split; [done |]. split_and!.
  - rewrite !length_app, !length_replicate. lia.
  - by apply Forall_app.
  - intros x. by rewrite Hn2, Hn1.
  - intros HwfG. destruct (Hwf1 HwfG) as [HwfG1 Hsub1].
    destruct (Hwf2 HwfG1) as [HwfG2 Hsub2].
    split; [done |]. intros u v Huv. by apply Hsub1, Hsub2.
Qed.

Lemma prepare_training_balanced_witness :
  ∃ X y G',
    prepare_training table3 [(1, 2); (2, 3)] [(1, 3)] path3 = (Ok (X, y), G') ∧
    y = replicate (Nat.min (length [(1, 2); (2, 3)]) (length [(1, 3)])) 1
        ++ replicate (Nat.min (length [(1, 2); (2, 3)]) (length [(1, 3)])) 0 ∧
    length X = length y ∧
    Forall (λ row, length row = 10%nat) X ∧
    (∀ x, has_node G' x = has_node path3 x) ∧
    (graph_wf path3 →
     graph_wf G' ∧ ∀ u v, has_edge G' u v = true → has_edge path3 u v = true).
Proof.
  apply (prepare_training_balanced table3 [(1, 2); (2, 3)] [(1, 3)] path3).
  apply (bool_decide_unpack _). vm_compute. exact I.
Defined.

(** * The ten components together *)

Lemma degree_nonneg G n : 0 ≤ degree G n.
Proof. unfold degree. case_bool_decide; lia. Qed.

Lemma attribute_step_bounds nf a b x y z :
  attribute_step nf a b = Ok [x; y; z] →
  (-1 <= y <= 1)%R ∧ (0 <= z)%R.
Proof.
  unfold attribute_step.
  destruct (nf !! a) as [u |], (nf !! b) as [v |];
    try (intros [= <- <- <-]; lra).
  destruct (cosine_similarity u v) as [c |] eqn:Hc; [| done].
  intros [= <- <- <-]. split; [apply correlation_block_bounds |].
  apply (IZR_le 0). unfold matching_nonzero. lia.
Qed.

Lemma adamic_adar_sum_nonneg G common : (0 <= adamic_adar_sum G common)%R.
Proof.
  rewrite adamic_adar_sum_filter.
  destruct (Rsum_map_bounds (λ w, 1 / ln (IZR (degree G w)))%R (1 / ln 2)%R
              (filter (λ w, degree G w > 1) common)) as [H0 _]; [| done].
  intros w [Hw _]%list_elem_of_filter. by apply adamic_adar_term_bounds.
Qed.

Lemma resource_allocation_sum_nonneg G common :
  (0 <= resource_allocation_sum G common)%R.
Proof.
  rewrite resource_allocation_sum_filter.
  destruct (Rsum_map_bounds (λ w, 1 / IZR (degree G w))%R 1%R
              (filter (λ w, degree G w > 0) common)) as [H0 _]; [| done].
  intros w [Hw _]%list_elem_of_filter.
  by apply resource_allocation_term_bounds.
Qed.

Lemma path_length_step_lower a b G pl G' :
  has_node G a = true → has_node G b = true →
  path_length_step a b G = (Ok pl, G') → -1 ≤ pl.
Proof.
  intros Ha Hb. unfold path_length_step, path_length_block. unfold_M.
  destruct (has_edge G a b).
  - destruct (remove_edge a b G) as [[[] | e] G1] eqn:Hrm.
    + pose proof (remove_edge_nodes a b G _ _ Ha Hb Hrm) as Hn.
      rewrite shortest_path_length_node by (by rewrite Hn).
      destruct (bfs G1 _ _ _ _ _); simpl; intros [= <- <-]; lia.
    + destruct (no_path_or_nx_error e); intros [= <- <-]. lia.
  - rewrite shortest_path_length_node by done.
    destruct (bfs G _ _ _ _ _); simpl; intros [= <- <-]; lia.
Qed.

(** X24: for two nodes of the graph and attribute vectors of one length,
    the components other than the cosine are in their ranges: the count
    of common neighbours, the degree product, the two indices and the
    matching count are not negative, the Jaccard coefficient and the
    shared-neighbours ratio lie between 0 and 1, the correlation between
    -1 and 1, and the shortest-path component is at least -1. *)
Theorem extract_features_ranges nf G a b :
  equal_lengths nf → has_node G a = true → has_node G b = true →
  ∃ c0 c1 c2 c3 c4 c5 c6 c7 c8 c9 G',
    extract_features nf a b G =
    (Ok [c0; c1; c2; c3; c4; c5; c6; c7; c8; c9], G') ∧
    (0 <= c0)%R ∧ (0 <= c1 <= 1)%R ∧ (0 <= c2)%R ∧ (0 <= c3)%R ∧
    (0 <= c4)%R ∧ (-1 <= c5)%R ∧ (-1 <= c7 <= 1)%R ∧
    (0 <= c8)%R ∧ (0 <= c9 <= 1)%R.
Proof.
  intros Hlen Ha Hb.
  destruct (extract_features_present nf a b G Ha Hb)
    as (common & pl & G' & Hcn & Hpl & _ & ->).
  destruct (attribute_step_total nf a b) as (x & y & z & Hattr).
  { intros u v. by apply equal_lengths_lookup. }
  rewrite Hattr. apply attribute_step_bounds in Hattr as (Hy & Hz).
  destruct (jaccard_of_range (adj G a) (adj G b)) as [Hj _].
  destruct (jaccard_of_range (adj G' a) (adj G' b)) as [Hs _].
  rewrite jaccard_of_shared_ratio_of in Hs.
  pose proof (adamic_adar_sum_nonneg G common) as Haa.
  pose proof (resource_allocation_sum_nonneg G common) as Hra.
  assert (0 <= IZR (Z.of_nat (length common)))%R as Hc
    by (apply (IZR_le 0); lia).
  assert (0 <= IZR (degree G a * degree G b))%R as Hpa.
  { apply (IZR_le 0). pose proof (degree_nonneg G a).
    pose proof (degree_nonneg G b). nia. }
  assert (-1 <= IZR pl)%R as Hp.
  { apply (IZR_le (-1)). exact (path_length_step_lower a b G pl G' Ha Hb Hpl). }
  eexists _, _, _, _, _, _, _, _, _, _, _. split; [done |].
  split_and!; lra.
Qed.

Lemma extract_features_ranges_witness :
  ∃ c0 c1 c2 c3 c4 c5 c6 c7 c8 c9 G',
    extract_features table3 1 3 triangle =
    (Ok [c0; c1; c2; c3; c4; c5; c6; c7; c8; c9], G') ∧
    (0 <= c0)%R ∧ (0 <= c1 <= 1)%R ∧ (0 <= c2)%R ∧ (0 <= c3)%R ∧
    (0 <= c4)%R ∧ (-1 <= c5)%R ∧ (-1 <= c7 <= 1)%R ∧
    (0 <= c8)%R ∧ (0 <= c9 <= 1)%R.
Proof.
  apply (extract_features_ranges table3 triangle 1 3).
  - apply (bool_decide_unpack _). vm_compute. exact I.
  - vm_compute. reflexivity.
  - vm_compute. reflexivity.
Defined.

(** X25: on a graph with symmetric adjacency and without self-loops, for
    two of its nodes and attribute vectors of one length, the Jaccard
    component and the shared-neighbours ratio of the returned list are
    equal, also when the call returns without the edge it took out. *)
Theorem jaccard_equals_shared_ratio_simple nf G a b :
  graph_wf G → loop_free G → equal_lengths nf →
  has_node G a = true → has_node G b = true →
  ∃ features G',
    extract_features nf a b G = (Ok features, G') ∧
    features !! 1%nat = features !! 9%nat.
Proof.
  intros Hwf Hlf Hlen Ha Hb.
  destruct (extract_features_returns nf a b G Hlen) as (features & Hex & _).
  eexists _, _. split; [exact Hex |].
  exact (jaccard_eq_shared_ratio_loop_free nf G a b features _
           Hwf Hlf Ha Hb Hex).
Qed.

Lemma jaccard_equals_shared_ratio_simple_witness :
  ∃ features G',
    extract_features table3 1 2 bridge = (Ok features, G') ∧
    features !! 1%nat = features !! 9%nat.
Proof.
  apply (jaccard_equals_shared_ratio_simple table3 bridge 1 2).
  - apply (bool_decide_unpack _). vm_compute. exact I.
  - apply (bool_decide_unpack _). vm_compute. exact I.
  - apply (bool_decide_unpack _). vm_compute. exact I.
  - vm_compute. reflexivity.
  - vm_compute. reflexivity.
Defined.


(** * Binary64 arithmetic *)

Section binary64_facts.
Import PrimFloat FloatOps FloatAxioms SpecFloat.

Lemma float_mul_comm (x y : float) : (x * y = y * x)%float.
Proof.
  rewrite <- (SF2Prim_Prim2SF (x * y)), <- (SF2Prim_Prim2SF (y * x)).
  rewrite !mul_spec. f_equal. unfold SF64mul, SFmul.
  destruct (Prim2SF x) as [sx | sx | | sx mx ex],
    (Prim2SF y) as [sy | sy | | sy my ey]; try done;
    rewrite ?(xorb_comm sx sy); try done.
  by rewrite (Pos.mul_comm mx my), (Z.add_comm ex ey).
Qed.




Lemma zip_with_mul_comm (u v : list float) :
  zip_with mul u v = zip_with mul v u.
Proof.
  revert v. induction u as [| x u IH]; intros [| y v]; simpl; try done.
  by rewrite IH, float_mul_comm.
Qed.

Lemma cosine_similarity_f64_sym u v :
  cosine_similarity_f64 u v = cosine_similarity_f64 v u.
Proof.
  unfold cosine_similarity_f64, np_dot_f64. rewrite zip_with_mul_comm.
  rewrite (float_mul_comm (np_linalg_norm_f64 u)).
  repeat case_bool_decide; congruence.
Qed.

Lemma matching_nonzero_f64_sym u v :
  matching_nonzero_f64 u v = matching_nonzero_f64 v u.
Proof.
  unfold matching_nonzero_f64. f_equal.
  revert v. induction u as [| x u IH]; intros [| y v]; simpl; try done.
  rewrite (andb_comm (negb (y =? 0)%float)).
  destruct (negb (x =? 0)%float && negb (y =? 0)%float); simpl; by rewrite IH.
Qed.

End binary64_facts.

(** * Binary64 arithmetic on zeros and NaN *)

Section binary64_zero.
Import PrimFloat FloatOps FloatAxioms SpecFloat.




















End binary64_zero.


(** * [extract_features] in binary64 *)

Section binary64_extract.
Import PrimFloat.

Variable math_log : float → float.

Lemma custom_jaccard_coefficient_f64_node G a b :
  has_node G a = true → has_node G b = true →
  custom_jaccard_coefficient_f64 G a b
  = Ok (jaccard_of_f64 (adj G a) (adj G b)).
Proof.
  intros Ha Hb. unfold custom_jaccard_coefficient_f64, jaccard_of_f64.
  rewrite (neighbors_node G a Ha), (neighbors_node G b Hb).
  by case_bool_decide.
Qed.

Lemma custom_adamic_adar_index_f64_common G a b common :
  common_neighbors G a b = Ok common →
  custom_adamic_adar_index_f64 math_log G a b
  = Ok (adamic_adar_sum_f64 math_log G common).
Proof.
  intros H. unfold custom_adamic_adar_index_f64. rewrite H.
  by destruct common.
Qed.

Lemma custom_resource_allocation_index_f64_common G a b common :
  common_neighbors G a b = Ok common →
  custom_resource_allocation_index_f64 G a b
  = Ok (resource_allocation_sum_f64 G common).
Proof.
  intros H. unfold custom_resource_allocation_index_f64. rewrite H.
  by destruct common.
Qed.

Lemma shared_neighbors_step_f64_node a b G :
  has_node G a = true → has_node G b = true →
  shared_neighbors_step_f64 a b G
  = (Ok (shared_ratio_of_f64 (adj G a) (adj G b)), G).
Proof.
  intros Ha Hb.
  unfold shared_neighbors_step_f64, shared_neighbors_block_f64,
    shared_ratio_of_f64.
  unfold_M.
  rewrite (neighbors_node G a Ha), (neighbors_node G b Hb).
  by case_bool_decide.
Qed.

Lemma extract_features_f64_absent nf a b G :
  has_node G a = false ∨ has_node G b = false →
  extract_features_f64 math_log nf a b G = (Ok (replicate 10 0%float), G).
Proof.
  intros H. unfold extract_features_f64. unfold_M.
  destruct H as [-> | ->]; [done |]. by rewrite orb_true_r.
Qed.

(** [extract_features_f64] on two nodes of the graph, step by step. *)
Lemma extract_features_f64_present nf a b G :
  has_node G a = true → has_node G b = true →
  ∃ common pl G',
    common_neighbors G a b = Ok common ∧
    path_length_step a b G = (Ok pl, G') ∧
    (∀ x, has_node G' x = has_node G x) ∧
    extract_features_f64 math_log nf a b G =
    match attribute_step_f64 nf a b with
    | Ok attribute_features =>
        (Ok ([float_of_Z (Z.of_nat (length common));
              jaccard_of_f64 (adj G a) (adj G b);
              float_of_Z (degree G a * degree G b);
              adamic_adar_sum_f64 math_log G common;
              resource_allocation_sum_f64 G common;
              float_of_Z pl]
             ++ attribute_features
             ++ [shared_ratio_of_f64 (adj G' a) (adj G' b)]), G')
    | Raise e => (Raise e, G')
    end.
Proof.
  intros Ha Hb.
  destruct (path_length_step_total a b G Ha Hb) as (pl & G' & Hpl & Hn).
  exists (elements ((adj G a ∩ adj G b) ∖ {[a; b]})), pl, G'.
  pose proof (common_neighbors_node G a b Ha Hb) as Hcn.
  split_and!; try done.
  pose proof (shared_neighbors_step_f64_node a b G') as Hsh.
  rewrite !Hn in Hsh. specialize (Hsh Ha Hb).
  unfold path_length_step, mret, M_ret in Hpl.
  unfold shared_neighbors_step_f64, mret, M_ret in Hsh.
  unfold extract_features_f64, mbind, M_bind, mret, M_ret, current, query.
  rewrite Ha, Hb. cbn [negb orb]. cbv beta iota.
  rewrite Hcn, (custom_jaccard_coefficient_f64_node G a b Ha Hb).
  rewrite (custom_adamic_adar_index_f64_common _ _ _ _ Hcn).
  rewrite (custom_resource_allocation_index_f64_common _ _ _ _ Hcn).
  rewrite Hpl. unfold attribute_step_f64.
  destruct (nf !! a) as [vec1 |], (nf !! b) as [vec2 |];
    try (rewrite Hsh; reflexivity).
  destruct (cosine_similarity_f64 vec1 vec2); [| done].
  rewrite Hsh. reflexivity.
Qed.

Lemma jaccard_of_f64_sym n1 n2 : jaccard_of_f64 n1 n2 = jaccard_of_f64 n2 n1.
Proof.
  unfold jaccard_of_f64.
  by rewrite (comm_L (∪) n1 n2), (comm_L (∩) n1 n2).
Qed.

Lemma shared_ratio_of_f64_sym n1 n2 :
  shared_ratio_of_f64 n1 n2 = shared_ratio_of_f64 n2 n1.
Proof.
  unfold shared_ratio_of_f64.
  rewrite (comm_L (∩) n1 n2), (Z.add_comm (Z.of_nat (size n1))). done.
Qed.

Lemma cosine_similarity_f64_total u v :
  length u = length v → ∃ c, cosine_similarity_f64 u v = Ok c.
Proof.
  intros Hlen. unfold cosine_similarity_f64, np_dot_f64.
  rewrite bool_decide_eq_true_2 by done.
  destruct (0 <? _)%float; eauto.
Qed.

End binary64_extract.

(** * What rounding leaves of the claims on numbers *)

Section binary64_properties.
Import PrimFloat.

(** C5: on a graph with symmetric adjacency, in binary64 arithmetic,
    [extract_features] leaves the same graph for the pair [(b, a)] as for
    [(a, b)], raises in the same cases, and returns the same count of
    common neighbours, Jaccard coefficient, degree product, shortest-path
    length, cosine similarity, matching count and shared-neighbours
    ratio, whatever function stands for [math.log]. The Adamic-Adar and
    resource-allocation sums and the correlation are not compared: their
    floating-point value depends on the order of the additions and of the
    two divisions. *)
Theorem extract_features_symmetric_components
    (math_log : float → float) nf G a b :
  graph_wf G →
  (extract_features_f64 math_log nf a b G).2
  = (extract_features_f64 math_log nf b a G).2 ∧
  result_map order_free_components (extract_features_f64 math_log nf a b G).1
  = result_map order_free_components
      (extract_features_f64 math_log nf b a G).1.
Proof.
  intros Hwf.
  destruct (has_node G a) eqn:Ha; [destruct (has_node G b) eqn:Hb |].
  - destruct (extract_features_f64_present math_log nf a b G Ha Hb)
      as (c1 & pl1 & G1 & Hc1 & Hp1 & _ & ->).
    destruct (extract_features_f64_present math_log nf b a G Hb Ha)
      as (c2 & pl2 & G2 & Hc2 & Hp2 & _ & ->).
    rewrite common_neighbors_sym, Hc1 in Hc2. injection Hc2 as <-.
    rewrite <- (path_length_step_sym a b G), Hp1 in Hp2 by done.
    injection Hp2 as <- <-.
    unfold attribute_step_f64.
    destruct (nf !! a) as [u |], (nf !! b) as [v |]; simpl;
      rewrite ?(jaccard_of_f64_sym (adj G b)),
        ?(shared_ratio_of_f64_sym (adj G1 b)),
        ?(Z.mul_comm (degree G b)); try done.
    rewrite (cosine_similarity_f64_sym v u).
    destruct (cosine_similarity_f64 u v); simpl; [| done].
    by rewrite (matching_nonzero_f64_sym v u).
  - by rewrite !extract_features_f64_absent by auto.
  - by rewrite !extract_features_f64_absent by auto.
Qed.

Lemma extract_features_symmetric_components_witness :
  (extract_features_f64 log_not_called table_integers 1 2 bridge).2
  = (extract_features_f64 log_not_called table_integers 2 1 bridge).2 ∧
  result_map order_free_components
    (extract_features_f64 log_not_called table_integers 1 2 bridge).1
  = result_map order_free_components
      (extract_features_f64 log_not_called table_integers 2 1 bridge).1.
Proof.
  apply (extract_features_symmetric_components log_not_called
           table_integers bridge 1 2).
  apply (bool_decide_unpack _). vm_compute. exact I.
Defined.

(** C5 as the specification words it fails on the two nodes 1 and 2
    without an edge, with the vectors [0, 0, 3] and [0, 3, 9]: the
    correlation component of the pair (1, 2) is 0.9449111825230682 and
    that of (2, 1) is 0.944911182523068, one unit in the last place
    below. [np.corrcoef] divides the covariance 7.5 by the standard
    deviation of its first argument and then by that of its second. *)
Lemma pearson_component_depends_on_order :
  graph_wf two_nodes ∧
  ∀ math_log : float → float,
    (extract_features_f64 math_log table_integers 1 2 two_nodes).1
    = Ok [0; 0; 0; 0; 0; -1; 0x1.e5b9d136c6d96p-1; 0x1.e3cb66051f5e1p-1;
          1; 0]%float ∧
    (extract_features_f64 math_log table_integers 2 1 two_nodes).1
    = Ok [0; 0; 0; 0; 0; -1; 0x1.e5b9d136c6d96p-1; 0x1.e3cb66051f5e0p-1;
          1; 0]%float ∧
    (0x1.e3cb66051f5e1p-1 =? 0x1.e3cb66051f5e0p-1)%float = false.
Proof.
  split; [apply (bool_decide_unpack _); vm_compute; exact I |].
  intros math_log. split_and!; vm_compute; reflexivity.
Qed.




(** C7 at the graph with the self-loop 1-1 and the edge 1-2, with an
    empty attribute table, for the pair (1, 2): the three attribute
    components are 0, but the shared-neighbours ratio is 0 as well, where
    the graph gives 1/2 (the neighbours of 1 are 1 and 2, that of 2 is
    1). The ratio is computed after the distance query has taken the edge
    1-2 out and not put it back. *)
Theorem attributes_absent_ratio_stale :
  has_node looped 1 = true ∧ has_node looped 2 = true ∧
  extract_features ∅ 1 2 looped
  = (Ok [0; 1 / 2; 3; 0; 0; -1; 0; 0; 0; 0]%R, delete_edge 1 2 looped) ∧
  shared_ratio_of (adj looped 1) (adj looped 2) = (1 / 2)%R ∧
  has_edge (delete_edge 1 2 looped) 1 2 = false ∧
  ∀ math_log : float → float,
    extract_features_f64 math_log ∅ 1 2 looped
    = (Ok [0; 0.5; 3; 0; 0; -1; 0; 0; 0; 0]%float, delete_edge 1 2 looped) ∧
    shared_ratio_of_f64 (adj looped 1) (adj looped 2) = 0.5%float.
Proof.
  assert (has_node looped 1 = true) as H1 by by_evaluation.
  assert (has_node looped 2 = true) as H2 by by_evaluation.
  assert (graph_wf looped) as Hwf by by_evaluation.
  split_and!; try done; try by_evaluation.
  destruct (attributes_absent_explicit ∅ looped 1 2 H1 H2)
    as (common & pl & G' & Hcn & Hpl & ->); [by left |].
  assert (common_neighbors looped 1 2 = Ok []) as Hc by by_evaluation.
  rewrite Hc in Hcn. injection Hcn as <-.
  rewrite path_length_step_wf in Hpl by done.
  assert (has_edge looped 1 2 = true) as He by by_evaluation.
  assert (shortest_path_length (delete_edge 1 2 looped) 1 2
          = Raise NetworkXNoPath) as Hd by by_evaluation.
  rewrite He in Hpl. cbv zeta in Hpl. rewrite Hd in Hpl.
  injection Hpl as <- <-.
  assert (jaccard_of (adj looped 1) (adj looped 2) = (1 / 2)%R) as ->.
  { unfold jaccard_of.
    assert (size (adj looped 1 ∪ adj looped 2) = 2%nat) as ->
      by by_evaluation.
    assert (size (adj looped 1 ∩ adj looped 2) = 1%nat) as ->
      by by_evaluation.
    done. }
  assert (shared_ratio_of (adj (delete_edge 1 2 looped) 1)
            (adj (delete_edge 1 2 looped) 2) = 0%R) as ->.
  { apply shared_ratio_of_disjoint. apply (bool_decide_unpack _).
    vm_compute. exact I. }
  assert (degree looped 1 * degree looped 2 = 3) as -> by by_evaluation.
  done.
Qed.

(** X9: in binary64, [cosine_similarity] returns a number for two
    vectors of one length and raises [np.dot]'s [ValueError] for two of
    different lengths, and it does not depend on the order of its two
    arguments. *)
Theorem cosine_similarity_result (u v : list float) :
  (length u = length v → ∃ c, cosine_similarity_f64 u v = Ok c) ∧
  (length u ≠ length v → cosine_similarity_f64 u v = Raise ValueError) ∧
  cosine_similarity_f64 u v = cosine_similarity_f64 v u.
Proof.
  split_and!.
  - apply cosine_similarity_f64_total.
  - intros Hlen. unfold cosine_similarity_f64, np_dot_f64.
    by rewrite bool_decide_eq_false_2.
  - apply cosine_similarity_f64_sym.
Qed.


End binary64_properties.

(** X26: on a graph with symmetric adjacency and without self-loops, for
    two of its nodes of which one has no entry in the attribute table,
    the call returns ten components: the three attribute components are
    0, and the other seven are the count of common neighbours, the
    Jaccard coefficient, the degree product, the two neighbour sums, the
    shortest-path component and the shared-neighbours ratio of the graph
    the call was given. *)
Theorem attributes_absent_loop_free nf G a b :
  graph_wf G → loop_free G →
  has_node G a = true → has_node G b = true →
  nf !! a = None ∨ nf !! b = None →
  ∃ common G',
    common_neighbors G a b = Ok common ∧
    extract_features nf a b G =
    (Ok [IZR (Z.of_nat (length common)); jaccard_of (adj G a) (adj G b);
         IZR (degree G a * degree G b); adamic_adar_sum G common;
         resource_allocation_sum G common;
         IZR (or_sentinel
                (shortest_path_length
                   (if has_edge G a b then delete_edge a b G else G) a b));
         0%R; 0%R; 0%R; shared_ratio_of (adj G a) (adj G b)], G').
Proof.
  intros Hwf Hlf Ha Hb Habs.
  destruct (attributes_absent_explicit nf G a b Ha Hb Habs)
    as (common & pl & G' & Hcn & Hpl & Hex).
  destruct (path_length_step_value a b G Hwf Ha Hb) as [G'' Hval].
  rewrite Hpl in Hval. injection Hval as -> <-.
  pose proof (jaccard_eq_shared_ratio_loop_free nf G a b _ _ Hwf Hlf Ha Hb Hex)
    as Heq.
  simpl in Heq. injection Heq as Heq.
  exists common, G'. split; [done |].
  rewrite Hex. rewrite <- Heq. by rewrite jaccard_of_shared_ratio_of.
Qed.

Lemma attributes_absent_loop_free_witness :
  ∃ common G',
    common_neighbors triangle 1 3 = Ok common ∧
    extract_features (delete 1 table3) 1 3 triangle =
    (Ok [IZR (Z.of_nat (length common));
         jaccard_of (adj triangle 1) (adj triangle 3);
         IZR (degree triangle 1 * degree triangle 3);
         adamic_adar_sum triangle common;
         resource_allocation_sum triangle common;
         IZR (or_sentinel
                (shortest_path_length
                   (if has_edge triangle 1 3 then delete_edge 1 3 triangle
                    else triangle) 1 3));
         0%R; 0%R; 0%R;
         shared_ratio_of (adj triangle 1) (adj triangle 3)], G').
Proof.
  apply (attributes_absent_loop_free (delete 1 table3) triangle 1 3).
  - apply (bool_decide_unpack _). vm_compute. exact I.
  - apply (bool_decide_unpack _). vm_compute. exact I.
  - vm_compute. reflexivity.
  - vm_compute. reflexivity.
  - left. apply lookup_delete_eq.
Defined.
